(** * VSS parsing engine: the runtime signal-ingestion pipeline

    A shallow embedding of the generated VHAL runtime
    ([VssSocketComm.cpp], [VssCommConn.cpp], [VssVehicleEmulator.cpp],
    [ConverterUtils.h]) and the properties the specification states
    about it.

    Conventions.
    - [std::string] is [string]; a position returned by [find] and its
      relatives is [option nat], [None] standing for [std::string::npos].
      The source relies on [npos + 1 == 0]; that wrap-around is written
      out in [erase_after_last].
    - [float] values are modelled by rationals ([Q]); results on them
      are stated up to [Qeq].
    - System calls are answered by a scripted [World]; every call made
      is recorded in a log so that "does not bind", "does not connect"
      can be stated. *)

From Stdlib Require Import ZArith NArith QArith Lqa Bool List Ascii String Lia.
From stdpp Require Import gmap strings.
Import ListNotations.

Open Scope string_scope.

(** ** [std::string] operations used by the sources *)

Module StdString.

(** The character set [" \t\r\n"] used by every trim in the sources. *)
Definition is_ws (c : ascii) : bool :=
  Ascii.eqb c " " || Ascii.eqb c "009" || Ascii.eqb c "013" || Ascii.eqb c "010".

Definition LF : ascii := "010"%char.
Definition NUL : ascii := "000"%char.

(** [s.find(c)]: index of the first occurrence. *)
Fixpoint find (c : ascii) (s : string) : option nat :=
  match s with
  | EmptyString => None
  | String a r =>
      if Ascii.eqb a c then Some O
      else match find c r with Some i => Some (S i) | None => None end
  end.

(** [s.substr(0, n)]. *)
Fixpoint take (n : nat) (s : string) : string :=
  match n, s with
  | S k, String a r => String a (take k r)
  | _, _ => EmptyString
  end.

(** [s.substr(n)] for [n <= s.size()] (the sources never exceed it). *)
Fixpoint drop (n : nat) (s : string) : string :=
  match n, s with
  | S k, String _ r => drop k r
  | _, _ => s
  end.

(** [s.find_first_not_of(" \t\r\n")]. *)
Fixpoint find_first_not_of_ws (s : string) : option nat :=
  match s with
  | EmptyString => None
  | String a r =>
      if is_ws a then
        match find_first_not_of_ws r with Some i => Some (S i) | None => None end
      else Some O
  end.

(** [s.find_last_not_of(" \t\r\n")]. *)
Fixpoint find_last_not_of_ws (s : string) : option nat :=
  match s with
  | EmptyString => None
  | String a r =>
      match find_last_not_of_ws r with
      | Some i => Some (S i)
      | None => if is_ws a then None else Some O
      end
  end.

(** [s.erase(s.find_last_not_of(" \t\r\n") + 1)]: [npos + 1] wraps to
    [0], so an all-blank string is erased whole. *)
Definition erase_after_last (s : string) : string :=
  match find_last_not_of_ws s with
  | Some i => take (S i) s
  | None => take 0 s
  end.

(** [s.erase(0, s.find_first_not_of(" \t\r\n"))]: a count of [npos]
    erases to the end. *)
Definition erase_before_first (s : string) : string :=
  match find_first_not_of_ws s with
  | Some i => drop i s
  | None => EmptyString
  end.

Definition empty (s : string) : bool :=
  match s with EmptyString => true | _ => false end.

(** The characters of a string, in order. *)
Definition chars : string -> list ascii := list_ascii_of_string.

(** A line: the text followed by the terminator. *)
Definition line (s : string) : string := s ++ String "010" "".

(** [s += buf] for a NUL-terminated [char*]: the copy stops at the
    first NUL byte. *)
Fixpoint c_str (buf : string) : string :=
  match buf with
  | EmptyString => EmptyString
  | String a r => if Ascii.eqb a NUL then EmptyString else String a (c_str r)
  end.

End StdString.

(** ** ConverterUtils *)

Module ConverterUtils.
Import StdString.

(** Only the header of this class is among the sources
    ([ConverterUtils.cpp] is not): each function below is modelled from
    the header's documentation and from section 4.2 of the
    specification, and says so. *)

Definition is_upper (c : ascii) : bool := Ascii.leb "A" c && Ascii.leb c "Z".
Definition is_lower (c : ascii) : bool := Ascii.leb "a" c && Ascii.leb c "z".

(** [std::tolower] in the C locale. *)
Definition tolower (c : ascii) : ascii :=
  if is_upper c then ascii_of_nat (nat_of_ascii c + 32) else c.

(** [std::toupper] in the C locale. *)
Definition toupper (c : ascii) : ascii :=
  if is_lower c then ascii_of_nat (nat_of_ascii c - 32) else c.

(** Modelled from the spec: the body of the private helper [toLower]
    is missing; case-insensitive matching folds every character to
    lower case. *)
Fixpoint toLower (str : string) : string :=
  match str with
  | EmptyString => EmptyString
  | String a r => String (tolower a) (toLower r)
  end.

(** Modelled from the spec: the body of the private helper [trim] is
    missing; it strips blanks at both ends, the way [parseVssMessage]
    does in the sources. *)
Definition trim (str : string) : string :=
  erase_before_first (erase_after_last str).

(** Modelled from the spec: the body of [stringToBool] is missing.
    The header documents it as accepting "true"/"false", "1"/"0",
    "yes"/"no", "on"/"off", case-insensitive, and throwing
    [std::invalid_argument] otherwise; [Some b] is the returned value,
    [None] the exception. *)
Definition stringToBool (str : string) : option bool :=
  let lower := toLower str in
  if String.eqb lower "true" || String.eqb lower "1"
     || String.eqb lower "yes" || String.eqb lower "on" then Some true
  else if String.eqb lower "false" || String.eqb lower "0"
          || String.eqb lower "no" || String.eqb lower "off" then Some false
  else None.

(** Modelled from the spec: the boolean branch of the engine's
    [parse] (section 4.2), which trims the raw text first. *)
Definition parse_bool (raw : string) : option bool := stringToBool (trim raw).

(** The accepted literals, as the specification lists them. *)
Definition true_literals : list string := ["true"; "1"; "yes"; "on"].
Definition false_literals : list string := ["false"; "0"; "no"; "off"].

(** [same_ignoring_case s lit]: [s] spells the literal [lit], each
    letter in either case.  Stated with [toupper] on the literal, not
    with the [toLower] the parser uses. *)
Inductive same_ignoring_case : string -> string -> Prop :=
| sic_nil : same_ignoring_case "" ""
| sic_same c s lit :
    same_ignoring_case s lit -> same_ignoring_case (String c s) (String c lit)
| sic_upper c s lit :
    same_ignoring_case s lit ->
    same_ignoring_case (String (toupper c) s) (String c lit).

Definition spells_one_of (lits : list string) (s : string) : Prop :=
  exists lit, In lit lits /\ same_ignoring_case s lit.

(** Every character of a literal is a lower-case letter or a digit:
    folding it to lower case leaves it alone. *)
Definition is_folded (c : ascii) : bool := Ascii.eqb (tolower c) c.

Fixpoint all_folded (s : string) : bool :=
  match s with
  | EmptyString => true
  | String a r => is_folded a && all_folded r
  end.

(** *** Numeric and blob parsing *)

Definition digit (c : ascii) : option Z :=
  if Ascii.leb "0" c && Ascii.leb c "9"
  then Some (Z.of_nat (nat_of_ascii c) - 48)%Z else None.

(** Reads a run of decimal digits: the value read so far, how many
    digits were read, and the unread rest. *)
Fixpoint digits (s : string) (acc : Z) (n : nat) : Z * nat * string :=
  match s with
  | EmptyString => (acc, n, s)
  | String c r =>
      match digit c with
      | Some d => digits r (acc * 10 + d)%Z (S n)
      | None => (acc, n, s)
      end
  end.

Definition split_sign (s : string) : bool * string :=
  match s with
  | String "-" r => (true, r)
  | String "+" r => (false, r)
  | _ => (false, s)
  end.

Definition signed (neg : bool) (q : Q) : Q := if neg then Qopp q else q.

(** Modelled from the spec: the body of [stringToFloat] is missing.
    A trimmed decimal literal with optional sign and optional fraction
    is read exactly, as a rational; any remainder that is not numeric
    is rejected ([None] is the [std::invalid_argument] of the header). *)
Definition stringToFloat (str : string) : option Q :=
  let (neg, body) := split_sign (trim str) in
  let '(ip, ni, rest) := digits body 0%Z O in
  match rest with
  | EmptyString =>
      if Nat.eqb ni 0 then None else Some (signed neg (inject_Z ip))
  | String "." frac =>
      let '(fp, nf, rest') := digits frac 0%Z O in
      if empty rest' && negb (Nat.eqb (ni + nf) 0)
      then Some (signed neg (Qmake (ip * 10 ^ Z.of_nat nf + fp)
                                   (Z.to_pos (10 ^ Z.of_nat nf))))
      else None
  | _ => None
  end.

(** Modelled from the spec: the bodies of [stringToInt32] and
    [stringToInt64] are missing.  The literal must fit [bits] bits, two's
    complement: a value that parses but does not fit is an error, not
    wrapped (section 4.2). *)
Definition stringToInt (bits : Z) (str : string) : option Z :=
  let (neg, body) := split_sign (trim str) in
  let '(ip, ni, rest) := digits body 0%Z O in
  let v := if neg then (- ip)%Z else ip in
  if empty rest && negb (Nat.eqb ni 0)
     && (- 2 ^ (bits - 1) <=? v)%Z && (v <? 2 ^ (bits - 1))%Z
  then Some v else None.

Definition stringToInt32 : string -> option Z := stringToInt 32.
Definition stringToInt64 : string -> option Z := stringToInt 64.

Definition isValidHexChar (c : ascii) : bool :=
  (Ascii.leb "0" c && Ascii.leb c "9")
  || (Ascii.leb "a" c && Ascii.leb c "f")
  || (Ascii.leb "A" c && Ascii.leb c "F").

Definition hexCharToByte (c : ascii) : Z :=
  let n := Z.of_nat (nat_of_ascii c) in
  if Ascii.leb "0" c && Ascii.leb c "9" then (n - 48)%Z
  else if Ascii.leb "a" c && Ascii.leb c "f" then (n - 87)%Z
  else (n - 55)%Z.

(** Modelled from the spec: the body of [hexStringToBytes] is missing.
    Hex digit pairs only; odd length or a digit that is not hexadecimal
    is an error (section 4.2). *)
Fixpoint hexStringToBytes (hexStr : string) : option (list Z) :=
  match hexStr with
  | EmptyString => Some []
  | String hi (String lo r) =>
      if isValidHexChar hi && isValidHexChar lo then
        match hexStringToBytes r with
        | Some bs => Some ((hexCharToByte hi * 16 + hexCharToByte lo)%Z :: bs)
        | None => None
        end
      else None
  | String _ EmptyString => None
  end.

(** *** Scaling and clamping *)

Definition Qltb (x y : Q) : bool := negb (Qle_bool y x).

(** Modelled from the spec: the body of [applyLinearScaling] is
    missing; the header documents it as value * multiplier + offset. *)
Definition applyLinearScaling (value multiplier offset : Q) : Q :=
  (value * multiplier + offset)%Q.

(** Modelled from the spec: the body of [clampFloat] is missing; the
    header documents it as clamping between the two bounds, and section
    4.2 as: below min gives min, above max gives max. *)
Definition clampFloat (value minVal maxVal : Q) : Q :=
  if Qltb value minVal then minVal
  else if Qltb maxVal value then maxVal
  else value.

End ConverterUtils.

(** ** AndroidVssConverter *)

Module AndroidVssConverter.
Import StdString ConverterUtils.

(** [AndroidVssConverter.cpp], with its one generated function per
    signal and its [mConversionMap], is not among the sources: the
    converter is modelled from the specification and from the generator
    template quoted in [VSS_CONVERTER_IMPLEMENTATION_COMPLETE.md]. *)

Inductive DataKind := Float | Int32 | Int64 | Bool | UTF8String | ByteBlob.

Definition is_numeric (k : DataKind) : bool :=
  match k with Float | Int32 | Int64 => true | _ => false end.

(** Modelled from the spec: the conversion rule of section 3, the data
    a generated converter is an instance of. *)
Record ConversionRule := {
  path : string;
  target_id : Z;
  area_id : Z;
  data_kind : DataKind;
  unit_multiplier : Q;
  unit_offset : Q;
  min_value : option Q;
  max_value : option Q
}.

(** The value carried by a [VehiclePropValue]: a tagged union over the
    representation of the rule's kind. *)
Inductive PropData :=
| Numeric (k : DataKind) (v : Q)
| Boolean (b : bool)
| Text (s : string)
| Blob (bytes : list Z).

Record VehiclePropValue := {
  prop : Z;
  areaId : Z;
  value : PropData
}.

(** Modelled from the spec: [parse] of section 4.2 for the numeric
    kinds; the two integer kinds reject what does not fit their width. *)
Definition parse_numeric (k : DataKind) (raw : string) : option Q :=
  match k with
  | Float => stringToFloat raw
  | Int32 => option_map inject_Z (stringToInt32 raw)
  | Int64 => option_map inject_Z (stringToInt64 raw)
  | _ => None
  end.

(** Modelled from the spec: the generated numeric converter, which is
    missing, statement by statement as the quoted template emits it:
    parse, [value *= multiplier] when the multiplier is not 1,
    [value += offset] when the offset is not 0, then one guarded
    assignment per bound that is present. *)
Definition convertNumeric (r : ConversionRule) (raw : string) : option Q :=
  match parse_numeric (data_kind r) raw with
  | None => None
  | Some v0 =>
      let v1 := if negb (Qeq_bool (unit_multiplier r) 1)
                then (v0 * unit_multiplier r)%Q else v0 in
      let v2 := if negb (Qeq_bool (unit_offset r) 0)
                then (v1 + unit_offset r)%Q else v1 in
      let v3 := match min_value r with
                | Some mn => if Qltb v2 mn then mn else v2
                | None => v2
                end in
      let v4 := match max_value r with
                | Some mx => if Qltb mx v3 then mx else v3
                | None => v3
                end in
      Some v4
  end.

(** Modelled from the spec: a generated converter as a whole, which
    materialises the property value; [None] is the exception a failed
    parse throws. *)
Definition convert (r : ConversionRule) (raw : string) : option VehiclePropValue :=
  let mk d := {| prop := target_id r; areaId := area_id r; value := d |} in
  match data_kind r with
  | Float | Int32 | Int64 =>
      option_map (fun q => mk (Numeric (data_kind r) q)) (convertNumeric r raw)
  | Bool => option_map (fun b => mk (Boolean b)) (parse_bool raw)
  | UTF8String => Some (mk (Text raw))
  | ByteBlob => option_map (fun bs => mk (Blob bs)) (hexStringToBytes (trim raw))
  end.

(** What a call to [convertVssToVhal] can do: fill [propValue] and
    return [true], return [false], or let a [std::exception] escape. *)
Inductive ConvOutcome :=
| ConvOk (propValue : VehiclePropValue)
| ConvFail
| ConvThrow.

(** Modelled from the spec: [convertVssToVhal], which is missing.  The
    registry lookup of section 4.1 yields "no rule" for an unknown
    path, and the call returns [false]. *)
Definition convertVssToVhal (registry : gmap string ConversionRule)
    (vssPath vssValue : string) : ConvOutcome :=
  match registry !! vssPath with
  | None => ConvFail
  | Some r =>
      match convert r vssValue with
      | Some pv => ConvOk pv
      | None => ConvThrow
      end
  end.

(** *** The order of operations as the specification words it *)

(** [clamp] with optional bounds: an absent bound does not constrain. *)
Definition spec_clamp (v : Q) (mn mx : option Q) : Q :=
  match mn, mx with
  | Some lo, Some hi => clampFloat v lo hi
  | Some lo, None => if Qltb v lo then lo else v
  | None, Some hi => if Qltb hi v then hi else v
  | None, None => v
  end.

Definition spec_scale (r : ConversionRule) (v : Q) : Q :=
  applyLinearScaling v (unit_multiplier r) (unit_offset r).

(** clamp(scale(parse(raw))). *)
Definition spec_convert (r : ConversionRule) (raw : string) : option Q :=
  option_map (fun v => spec_clamp (spec_scale r v) (min_value r) (max_value r))
             (parse_numeric (data_kind r) raw).

(** The wrong order, for comparison: scale(clamp(parse(raw))). *)
Definition clamp_then_scale (r : ConversionRule) (raw : string) : option Q :=
  option_map (fun v => spec_scale r (spec_clamp v (min_value r) (max_value r)))
             (parse_numeric (data_kind r) raw).

(** Rule invariant of section 3: min_value <= max_value when both are
    present. *)
Definition bounds_ordered (r : ConversionRule) : Prop :=
  match min_value r, max_value r with
  | Some lo, Some hi => (lo <= hi)%Q
  | _, _ => True
  end.

(** Equality of optional rationals up to [Qeq]. *)
Definition opt_Qeq (a b : option Q) : Prop :=
  match a, b with
  | Some x, Some y => (x == y)%Q
  | None, None => True
  | _, _ => False
  end.

(** The rule of the specification's example: multiplier 3.6, bounds
    0 and 300. *)
Definition speed_rule : ConversionRule := {|
  path := "Vehicle.Speed";
  target_id := 291504647;
  area_id := 0;
  data_kind := Float;
  unit_multiplier := (36 # 10)%Q;
  unit_offset := 0%Q;
  min_value := Some 0%Q;
  max_value := Some (300 # 1)%Q
|}.

Definition door_rule : ConversionRule := {|
  path := "Doors.FrontLeft.IsOpen";
  target_id := 287310850;
  area_id := 0;
  data_kind := Bool;
  unit_multiplier := 1%Q;
  unit_offset := 0%Q;
  min_value := None;
  max_value := None
|}.

Definition sample_registry : gmap string ConversionRule :=
  <[path speed_rule := speed_rule]> (<[path door_rule := door_rule]> ∅).

End AndroidVssConverter.

(** ** VssVehicleEmulator *)

Module VssVehicleEmulator.
Import StdString AndroidVssConverter.

(** [StatusCode] of the vehicle HAL. *)
Inductive StatusCode :=
| OK | TRY_AGAIN | INVALID_ARG | NOT_AVAILABLE | ACCESS_DENIED | INTERNAL_ERROR.

Definition is_OK (c : StatusCode) : bool :=
  match c with OK => true | _ => false end.

(** What a call into the base class can do to the property store:
    return a status, or throw a [std::exception]. *)
Inductive SetOutcome (Store : Type) :=
| SetReturns (status : StatusCode) (store' : Store)
| SetThrows (store' : Store).
Arguments SetReturns {Store} _ _.
Arguments SetThrows {Store} _.

(** The collaborators the emulator calls and does not define: the
    base class [VehicleEmulator::doSetProperty], acting on the property
    store, and the HAL manager's [setPropertyFromVehicle] ([None] when
    it throws). *)
Class VehicleEmulator (Store Hal : Type) := {
  doSetProperty : Store -> VehiclePropValue -> SetOutcome Store;
  setPropertyFromVehicle : Hal -> VehiclePropValue -> option Hal
}.

(** The object's fields, as the member functions of the sources use
    them.
    [mVssConverter] stands for the converter object behind the pointer:
    what a call of its [convertVssToVhal] does with a path and a value.
    The pointer is set before the object becomes active and released
    only after it stopped being so.  The three counters are declared
    in [VssVehicleEmulator.h], which is not among the sources; they are
    taken as the unbounded, monotonically increasing counters of
    section 4.4 of the specification. *)
Record Emulator (Store Hal : Type) := {
  mInitialized : bool;
  mActive : bool;
  mMessagesProcessed : N;
  mMessagesConverted : N;
  mConversionErrors : N;
  mVssConverter : string -> string -> ConvOutcome;
  mHal : option Hal;
  store : Store
}.
Arguments mInitialized {Store Hal} _.
Arguments mActive {Store Hal} _.
Arguments mMessagesProcessed {Store Hal} _.
Arguments mMessagesConverted {Store Hal} _.
Arguments mConversionErrors {Store Hal} _.
Arguments mVssConverter {Store Hal} _.
Arguments mHal {Store Hal} _.
Arguments store {Store Hal} _.

(** The message reads [pre=post] with no '=' in [pre]: [pre] and
    [post] are what lies either side of the first '='. *)
Definition split_at_first_equals (message pre post : string) : Prop :=
  message = pre ++ String "=" post /\
  ~ In "="%char (list_ascii_of_string pre).

(** The malformed messages, case by case as section 4.4 lists them.
    The '=' meant is the one the message is split at, the first. *)
Inductive malformed : string -> Prop :=
| no_equals message :
    ~ In "="%char (list_ascii_of_string message) -> malformed message
| equals_at_start post :
    malformed (String "=" post)
| equals_at_end pre :
    ~ In "="%char (list_ascii_of_string pre) ->
    malformed (pre ++ "=")
| empty_after_trim message pre post :
    split_at_first_equals message pre post ->
    ConverterUtils.trim pre = "" \/ ConverterUtils.trim post = "" ->
    malformed message.

Section Methods.
Context {Store Hal : Type} `{VehicleEmulator Store Hal}.

Local Abbreviation Emu := (Emulator Store Hal).

Definition incProcessed (e : Emu) : Emu :=
  {| mInitialized := mInitialized e; mActive := mActive e;
     mMessagesProcessed := mMessagesProcessed e + 1;
     mMessagesConverted := mMessagesConverted e;
     mConversionErrors := mConversionErrors e;
     mVssConverter := mVssConverter e; mHal := mHal e; store := store e |}.

Definition incConverted (e : Emu) : Emu :=
  {| mInitialized := mInitialized e; mActive := mActive e;
     mMessagesProcessed := mMessagesProcessed e;
     mMessagesConverted := mMessagesConverted e + 1;
     mConversionErrors := mConversionErrors e;
     mVssConverter := mVssConverter e; mHal := mHal e; store := store e |}.

Definition incErrors (e : Emu) : Emu :=
  {| mInitialized := mInitialized e; mActive := mActive e;
     mMessagesProcessed := mMessagesProcessed e;
     mMessagesConverted := mMessagesConverted e;
     mConversionErrors := mConversionErrors e + 1;
     mVssConverter := mVssConverter e; mHal := mHal e; store := store e |}.

Definition withStore (e : Emu) (st : Store) (h : option Hal) : Emu :=
  {| mInitialized := mInitialized e; mActive := mActive e;
     mMessagesProcessed := mMessagesProcessed e;
     mMessagesConverted := mMessagesConverted e;
     mConversionErrors := mConversionErrors e;
     mVssConverter := mVssConverter e; mHal := h; store := st |}.

(** [isActive]. *)
Definition isActive (e : Emu) : bool := mActive e && mInitialized e.

(** [parseVssMessage]: [Some (vssPath, vssValue)] when it returns
    [true], [None] when it returns [false]. *)
Definition parseVssMessage (message : string) : option (string * string) :=
  match find "=" message with
  | None => None
  | Some equals_pos =>
      if Nat.eqb equals_pos 0
         || Nat.eqb equals_pos (String.length message - 1)
      then None
      else
        let vssPath := take equals_pos message in
        let vssValue := drop (S equals_pos) message in
        let vssPath := erase_before_first (erase_after_last vssPath) in
        let vssValue := erase_before_first (erase_after_last vssValue) in
        if empty vssPath || empty vssValue then None
        else Some (vssPath, vssValue)
  end.

(** [updateVhalProperty]: the returned flag and the object after the
    call.  An exception from either collaborator is caught here and
    turned into [false]. *)
Definition updateVhalProperty (e : Emu) (propValue : VehiclePropValue)
    : bool * Emu :=
  match doSetProperty (store e) propValue with
  | SetThrows st' => (false, withStore e st' (mHal e))
  | SetReturns result st' =>
      if is_OK result then
        match mHal e with
        | None => (true, withStore e st' None)
        | Some h =>
            match setPropertyFromVehicle h propValue with
            | Some h' => (true, withStore e st' (Some h'))
            | None => (false, withStore e st' (Some h))
            end
        end
      else (false, withStore e st' (mHal e))
  end.

(** [processVssMessage]. *)
Definition processVssMessage (e : Emu) (message : string) : Emu :=
  if negb (isActive e) then e
  else
    let e := incProcessed e in
    match parseVssMessage message with
    | None => incErrors e
    | Some (vssPath, vssValue) =>
        match mVssConverter e vssPath vssValue with
        | ConvFail => incErrors e
        | ConvThrow => incErrors e
        | ConvOk propValue =>
            let (updated, e) := updateVhalProperty e propValue in
            if updated then incConverted e else incErrors e
        end
    end.

(** Messages handled one after the other, in arrival order. *)
Definition processAll (e : Emu) (messages : list string) : Emu :=
  fold_left processVssMessage messages e.

(** The relation the three counters are expected to keep. *)
Definition counters_balanced (e : Emu) : Prop :=
  mMessagesProcessed e = (mMessagesConverted e + mConversionErrors e)%N.

(** The object right after construction and a successful
    [initialize]: flags set, counters at zero. *)
Definition initialized (converter : string -> string -> ConvOutcome)
    (h : option Hal) (st : Store) : Emu :=
  {| mInitialized := true; mActive := true;
     mMessagesProcessed := 0; mMessagesConverted := 0; mConversionErrors := 0;
     mVssConverter := converter; mHal := h; store := st |}.

(** The object the constructor builds: neither initialized nor
    active; the converter pointer is null, which is written as the
    converter that knows no signal. *)
Definition constructed (h : option Hal) (st : Store) : Emu :=
  {| mInitialized := false; mActive := false;
     mMessagesProcessed := 0; mMessagesConverted := 0; mConversionErrors := 0;
     mVssConverter := fun _ _ => ConvFail; mHal := h; store := st |}.

(** The object after [shutdown]: both flags cleared, converter
    released. *)
Definition shutdown (e : Emu) : Emu :=
  if negb (mInitialized e) then e
  else
    {| mInitialized := false; mActive := false;
       mMessagesProcessed := mMessagesProcessed e;
       mMessagesConverted := mMessagesConverted e;
       mConversionErrors := mConversionErrors e;
       mVssConverter := fun _ _ => ConvFail;
       mHal := mHal e; store := store e |}.

End Methods.

(** Modelled from the spec: the property store behind
    [VehicleEmulator::doSetProperty] is not among the sources.  Section
    3 describes it as a map from (target_id, area_id) to the current
    property value, overwritten on each successful conversion. *)
Definition PropertyStore := gmap (Z * Z) VehiclePropValue.

#[export] Instance map_store : VehicleEmulator PropertyStore (list VehiclePropValue) := {|
  doSetProperty st pv := SetReturns OK (<[(prop pv, areaId pv) := pv]> st);
  setPropertyFromVehicle h pv := Some (h ++ [pv])%list
|}.

Definition sample_emulator : Emulator PropertyStore (list VehiclePropValue) :=
  initialized (convertVssToVhal sample_registry) (Some []) ∅.

End VssVehicleEmulator.

(** ** The framer as the specification words it *)

Module Framer.
Import StdString.

(** The complete records of a byte stream: cut at each line
    terminator, trailing blanks trimmed, empty records dropped; what
    follows the last terminator is not yet a record.  [cur] is the
    record being read. *)
Fixpoint records_from (cur : string) (stream : string) : list string :=
  match stream with
  | EmptyString => []
  | String a r =>
      if Ascii.eqb a LF then
        let rec := erase_after_last cur in
        if empty rec then records_from "" r else rec :: records_from "" r
      else records_from (cur ++ String a "") r
  end.

Definition complete_records (stream : string) : list string :=
  records_from "" stream.

(** The byte stream a sequence of reads adds up to. *)
Definition stream_of (chunks : list string) : string :=
  fold_right String.append "" chunks.

End Framer.

(** ** VssCommConn and VssSocketComm *)

Module VssSocketComm.
Import StdString.

(** The [VssMessageProcessor] interface. *)
Class VssMessageProcessor (P : Type) := {
  processVssMessage : P -> string -> P
}.

(** System calls and thread operations the listener can issue.
    [SysConnect] is connect(2); it is listed so that "never connects
    outbound" is a statement about the log. *)
Inductive Syscall :=
| SysSocket
| SysSetsockopt (fd : Z)
| SysBind (fd port : Z)
| SysListen (fd : Z)
| SysAccept (fd : Z)
| SysRecv (fd : Z)
| SysClose (fd : Z)
| SysConnect (fd : Z)
| SysSleep
| ThreadSpawn
| ThreadJoin.

(** How a call of [start] ends: it returns a flag, or the process is
    ended by [std::terminate], which the move-assignment to a
    [std::thread] that is still joinable calls. *)
Inductive StartResult :=
| Returns (value : bool)
| Terminates.

(** What [recv] hands back: [RecvBytes buf] is a return value of
    [String.length buf] with those bytes in the buffer (so the empty
    buffer is the orderly shutdown of the peer, return value 0);
    [RecvTimeout] is -1 with EAGAIN/EWOULDBLOCK; [RecvError] is -1 with
    any other errno. *)
Inductive RecvResult :=
| RecvBytes (buf : string)
| RecvTimeout
| RecvError.

Definition RecvEOF : RecvResult := RecvBytes "".

(** A [recv] into [char buffer[BUFFER_SIZE]] asks for at most
    [BUFFER_SIZE - 1] bytes. *)
Definition fits_buffer (BUFFER_SIZE : nat) (r : RecvResult) : Prop :=
  match r with
  | RecvBytes buf => String.length buf <= BUFFER_SIZE - 1
  | _ => True
  end.

(** The answers to one run of [setupServerSocket]. *)
Record SetupReply := {
  socket_fd : Z;
  setsockopt_ok : bool;
  bind_ok : bool;
  listen_ok : bool
}.

(** The operating system as a script: the answers to the successive
    calls of each kind, and the log of the calls made so far (most
    recent first).  An exhausted [accepts] script answers -1 (timeout:
    no peer); an exhausted [setups] script answers -1 to [socket]; an
    exhausted [recvs] script is a peer that stays silent for good, so
    that [recv] times out again and again and [readMessage] does not
    return. *)
Record World := {
  setups : list SetupReply;
  accepts : list Z;
  recvs : list RecvResult;
  log : list Syscall
}.

Definition emit (c : Syscall) (w : World) : World :=
  {| setups := setups w; accepts := accepts w; recvs := recvs w;
     log := c :: log w |}.

Definition with_recvs (rs : list RecvResult) (w : World) : World :=
  {| setups := setups w; accepts := accepts w; recvs := rs; log := log w |}.

(** The object's fields; [mReadThread] holds whether the thread is
    joinable. *)
Record Comm (P : Type) := {
  mProcessor : option P;
  mRunning : bool;
  mReadThread : bool;
  mPort : Z;
  mServerSocket : Z;
  mClientSocket : Z;
  mHasActiveConnection : bool
}.
Arguments mProcessor {P} _.
Arguments mRunning {P} _.
Arguments mReadThread {P} _.
Arguments mPort {P} _.
Arguments mServerSocket {P} _.
Arguments mClientSocket {P} _.
Arguments mHasActiveConnection {P} _.

Section Methods.
Context {P : Type} `{VssMessageProcessor P}.

Local Abbreviation Conn := (Comm P).

Definition set_processor (p : option P) (c : Conn) : Conn :=
  {| mProcessor := p; mRunning := mRunning c; mReadThread := mReadThread c;
     mPort := mPort c; mServerSocket := mServerSocket c;
     mClientSocket := mClientSocket c;
     mHasActiveConnection := mHasActiveConnection c |}.

Definition set_running (b : bool) (c : Conn) : Conn :=
  {| mProcessor := mProcessor c; mRunning := b; mReadThread := mReadThread c;
     mPort := mPort c; mServerSocket := mServerSocket c;
     mClientSocket := mClientSocket c;
     mHasActiveConnection := mHasActiveConnection c |}.

Definition set_thread (b : bool) (c : Conn) : Conn :=
  {| mProcessor := mProcessor c; mRunning := mRunning c; mReadThread := b;
     mPort := mPort c; mServerSocket := mServerSocket c;
     mClientSocket := mClientSocket c;
     mHasActiveConnection := mHasActiveConnection c |}.

Definition set_server (fd : Z) (c : Conn) : Conn :=
  {| mProcessor := mProcessor c; mRunning := mRunning c;
     mReadThread := mReadThread c; mPort := mPort c; mServerSocket := fd;
     mClientSocket := mClientSocket c;
     mHasActiveConnection := mHasActiveConnection c |}.

Definition set_client (fd : Z) (c : Conn) : Conn :=
  {| mProcessor := mProcessor c; mRunning := mRunning c;
     mReadThread := mReadThread c; mPort := mPort c;
     mServerSocket := mServerSocket c; mClientSocket := fd;
     mHasActiveConnection := mHasActiveConnection c |}.

Definition set_active (b : bool) (c : Conn) : Conn :=
  {| mProcessor := mProcessor c; mRunning := mRunning c;
     mReadThread := mReadThread c; mPort := mPort c;
     mServerSocket := mServerSocket c; mClientSocket := mClientSocket c;
     mHasActiveConnection := b |}.

(** The object the constructor builds. *)
Definition construct (processor : option P) (port : Z) : Conn :=
  {| mProcessor := processor; mRunning := false; mReadThread := false;
     mPort := port; mServerSocket := -1; mClientSocket := -1;
     mHasActiveConnection := false |}.

(** [VssCommConn::processMessage]. *)
Definition processMessage (c : Conn) (message : string) : Conn :=
  match mProcessor c with
  | Some p =>
      if negb (empty message)
      then set_processor (Some (processVssMessage p message)) c
      else c
  | None => c
  end.

(** [closeSocket]. *)
Definition closeSocket (w : World) (c : Conn) : World * Conn :=
  let (w, c) :=
    if (0 <=? mClientSocket c)%Z
    then (emit (SysClose (mClientSocket c)) w,
          set_active false (set_client (-1) c))
    else (w, c) in
  if (0 <=? mServerSocket c)%Z
  then (emit (SysClose (mServerSocket c)) w, set_server (-1) c)
  else (w, c).

(** [htons(mPort)] as a port number: the [int] is converted to
    [uint16_t], that is, taken modulo 2^16; the byte order of the
    result is a matter of representation. *)
Definition htons (hostshort : Z) : Z := hostshort mod 2 ^ 16.


(** [setupServerSocket]. *)
Definition setupServerSocket (w : World) (c : Conn) : bool * World * Conn :=
  let (reply, rest) :=
    match setups w with
    | r :: rest => (r, rest)
    | [] => ({| socket_fd := -1; setsockopt_ok := false;
                bind_ok := false; listen_ok := false |}, [])
    end in
  let w := {| setups := rest; accepts := accepts w; recvs := recvs w;
              log := SysSocket :: log w |} in
  let c := set_server (socket_fd reply) c in
  if (mServerSocket c <? 0)%Z then (false, w, c)
  else
    let w := emit (SysSetsockopt (mServerSocket c)) w in
    if negb (setsockopt_ok reply) then
      let (w, c) := closeSocket w c in (false, w, c)
    else
      let w := emit (SysSetsockopt (mServerSocket c)) w in
      let w := emit (SysBind (mServerSocket c) (htons (mPort c))) w in
      if negb (bind_ok reply) then
        let (w, c) := closeSocket w c in (false, w, c)
      else
        let w := emit (SysListen (mServerSocket c)) w in
        if negb (listen_ok reply) then
          let (w, c) := closeSocket w c in (false, w, c)
        else (true, w, c).

(** [start]: how the call ended, with the world and the object at
    that point.  [mReadThread = std::thread(...)] on a handle that is
    still joinable ends the process. *)
Definition start (w : World) (c : Conn) : StartResult * World * Conn :=
  if mRunning c then (Returns true, w, c)
  else
    let '(ok, w, c) := setupServerSocket w c in
    if negb ok then (Returns false, w, c)
    else
      let c := set_running true c in
      if mReadThread c then (Terminates, w, c)
      else (Returns true, emit ThreadSpawn w, set_thread true c).

(** [stop], as its own statements go; what the read thread does
    meanwhile is not part of this function. *)
Definition stop (w : World) (c : Conn) : World * Conn :=
  if negb (mRunning c) then (w, c)
  else
    let c := set_running false c in
    let (w, c) := closeSocket w c in
    if mReadThread c then (emit ThreadJoin w, set_thread false c)
    else (w, c).

Definition isRunning (c : Conn) : bool := mRunning c.

(** [acceptConnection]. *)
Definition acceptConnection (w : World) (c : Conn) : bool * World * Conn :=
  if (mServerSocket c <? 0)%Z then (false, w, c)
  else
    let (fd, rest) :=
      match accepts w with
      | fd :: rest => (fd, rest)
      | [] => ((-1)%Z, [])
      end in
    let w := {| setups := setups w; accepts := rest; recvs := recvs w;
                log := SysAccept (mServerSocket c) :: log w |} in
    let c := set_client fd c in
    if (mClientSocket c <? 0)%Z then (false, w, c)
    else
      let w := emit (SysSetsockopt (mClientSocket c)) w in
      (true, w, set_active true c).

(** How a call to [readMessage] ends: it returns a string, or the peer
    stays silent for good and the call never returns. *)
Inductive ReadOutcome :=
| ReadReturned (message : string) (w : World) (c : Conn)
| ReadBlocked (w : World) (c : Conn).

(** The [while] loop of [readMessage]; [message] is the function's
    local accumulator, [rs] the answers [recv] is still to give. *)
Fixpoint readMessage_loop (rs : list RecvResult) (message : string)
    (w : World) (c : Conn) : ReadOutcome :=
  if mRunning c && mHasActiveConnection c then
    match rs with
    | [] => ReadBlocked (with_recvs [] w) c
    | r :: rs' =>
        let w := emit (SysRecv (mClientSocket c)) w in
        match r with
        | RecvBytes buf =>
            if negb (empty buf) then
              let message := message ++ c_str buf in
              match find LF message with
              | Some newline_pos =>
                  let complete_message := take newline_pos message in
                  let message := drop (S newline_pos) message in
                  let complete_message := erase_after_last complete_message in
                  if negb (empty complete_message)
                  then ReadReturned complete_message (with_recvs rs' w) c
                  else readMessage_loop rs' message w c
              | None => readMessage_loop rs' message w c
              end
            else
              ReadReturned "" (with_recvs rs' (emit (SysClose (mClientSocket c)) w))
                           (set_client (-1) (set_active false c))
        | RecvTimeout => readMessage_loop rs' message w c
        | RecvError =>
            ReadReturned "" (with_recvs rs' (emit (SysClose (mClientSocket c)) w))
                         (set_client (-1) (set_active false c))
        end
    end
  else ReadReturned "" (with_recvs rs w) c.

(** [readMessage]. *)
Definition readMessage (w : World) (c : Conn) : ReadOutcome :=
  if (mClientSocket c <? 0)%Z || negb (mHasActiveConnection c)
  then ReadReturned "" w c
  else readMessage_loop (recvs w) "" w c.

(** One turn of the [while] loop of [readLoop]. *)
Inductive Turn :=
| Continue (w : World) (c : Conn)
| Blocked (w : World) (c : Conn).

Definition readLoop_read (w : World) (c : Conn) : Turn :=
  match readMessage w c with
  | ReadReturned message w c =>
      if negb (empty message) then Continue w (processMessage c message)
      else Continue w c
  | ReadBlocked w c => Blocked w c
  end.

Definition readLoop_turn (w : World) (c : Conn) : Turn :=
  if negb (mHasActiveConnection c) then
    let '(accepted, w, c) := acceptConnection w c in
    if negb accepted then Continue (emit SysSleep w) c
    else readLoop_read w c
  else readLoop_read w c.

(** How a run of [readLoop] stands after at most [fuel] turns: the
    loop left ([mRunning] was false), it is blocked in [recv], or it is
    still turning. *)
Inductive Run :=
| Exited (w : World) (c : Conn)
| Waiting (w : World) (c : Conn)
| Turning (w : World) (c : Conn).

Fixpoint readLoop (fuel : nat) (w : World) (c : Conn) : Run :=
  match fuel with
  | O => Turning w c
  | S fuel =>
      if mRunning c then
        match readLoop_turn w c with
        | Continue w c => readLoop fuel w c
        | Blocked w c => Waiting w c
        end
      else Exited w c
  end.

Definition run_conn (r : Run) : Conn :=
  match r with Exited _ c | Waiting _ c | Turning _ c => c end.

Definition run_world (r : Run) : World :=
  match r with Exited w _ | Waiting w _ | Turning w _ => w end.

End Methods.

(** A processor that records what it is handed, in order. *)
#[export] Instance recorder : VssMessageProcessor (list string) := {|
  processVssMessage seen message := (seen ++ [message])%list
|}.

(** The emulator is the processor the listener is given. *)
#[export] Instance emulator_processor {Store Hal : Type}
    `{VssVehicleEmulator.VehicleEmulator Store Hal}
    : VssMessageProcessor (VssVehicleEmulator.Emulator Store Hal) := {|
  processVssMessage := VssVehicleEmulator.processVssMessage
|}.

(** A listener that is running with a peer connected. *)
Definition connected {P : Type} (processor : P) (port server client : Z) : Comm P :=
  {| mProcessor := Some processor; mRunning := true; mReadThread := true;
     mPort := port; mServerSocket := server; mClientSocket := client;
     mHasActiveConnection := true |}.

(** A world in which [recv] answers [rs] and [accept] answers [acs]. *)
Definition scripted (acs : list Z) (rs : list RecvResult) : World :=
  {| setups := []; accepts := acs; recvs := rs; log := [] |}.

(** An answer of [recv] after which the peer is still there: a
    timeout, or at least one byte. *)
Definition alive (r : RecvResult) : Prop :=
  match r with
  | RecvBytes buf => buf <> ""
  | RecvTimeout => True
  | RecvError => False
  end.

(** The calls the read loop issues: accept, setsockopt on the accepted
    socket, recv, close of the client socket, and the sleep between
    accept attempts. *)
Definition read_loop_call (call : Syscall) : bool :=
  match call with
  | SysAccept _ | SysSetsockopt _ | SysRecv _ | SysClose _ | SysSleep => true
  | _ => false
  end.

(** [w'] has logged nothing beyond [w] but calls of the read loop. *)
Definition only_loop_calls (w w' : World) : Prop :=
  forall call, In call (log w') -> In call (log w) \/ read_loop_call call = true.

(** The listener's own state is as it was: running flag, listening
    socket, port and thread. *)
Definition listener_kept {P : Type} (c c' : Comm P) : Prop :=
  mRunning c' = mRunning c /\ mServerSocket c' = mServerSocket c /\
  mPort c' = mPort c /\ mReadThread c' = mReadThread c.

(** What the recording processor has been handed at the end of a run. *)
Definition delivered (r : @Run (list string)) : list string :=
  match mProcessor (run_conn r) with Some seen => seen | None => [] end.

(** "The framer buffers across reads", for the recording
    processor: however the stream is cut into reads (each returning at
    least one byte, none of them NUL), what the loop hands over is the
    stream's complete records. *)
Definition buffers_across_reads : Prop :=
  forall chunks : list string,
    Forall (fun chunk => chunk <> "" /\ ~ In NUL (chars chunk)) chunks ->
    exists fuel,
      delivered (readLoop fuel (scripted [] (map RecvBytes chunks))
                          (connected [] 33445 3 4))
      = Framer.complete_records (Framer.stream_of chunks).

End VssSocketComm.

(** ** Shapes of strings, scripts and states *)

Module Shapes.
Import StdString VssSocketComm.

(** Every character is one of [" \t\r\n"]. *)
Fixpoint all_ws (s : string) : bool :=
  match s with
  | EmptyString => true
  | String a r => is_ws a && all_ws r
  end.

Definition first_char (s : string) : option ascii :=
  match s with
  | EmptyString => None
  | String a _ => Some a
  end.

Fixpoint last_char (s : string) : option ascii :=
  match s with
  | EmptyString => None
  | String a EmptyString => Some a
  | String _ r => last_char r
  end.

(** The string does not end in a blank (and is not empty). *)
Definition ends_solid (s : string) : bool :=
  match last_char s with
  | Some z => negb (is_ws z)
  | None => false
  end.

(** The string does not start with a blank (and is not empty). *)
Definition starts_solid (s : string) : bool :=
  match first_char s with
  | Some a => negb (is_ws a)
  | None => false
  end.

(** Not empty, with no blank at either end. *)
Definition trimmed (s : string) : bool := starts_solid s && ends_solid s.

(** A record as the read loop hands it over: not empty, no line
    terminator and no NUL byte inside, no blank at its end. *)
Definition clean_record (m : string) : Prop :=
  ends_solid m = true /\ ~ In LF (chars m) /\ ~ In NUL (chars m).

(** An answer of [recv] that cannot complete a record: a timeout, or
    bytes with no terminator and no NUL among them. *)
Definition quiet (r : RecvResult) : Prop :=
  match r with
  | RecvBytes buf => buf <> "" /\ ~ In LF (chars buf) /\ ~ In NUL (chars buf)
  | RecvTimeout => True
  | RecvError => False
  end.

(** The bytes an answer of [recv] carries. *)
Definition bytes_of (r : RecvResult) : string :=
  match r with
  | RecvBytes buf => buf
  | _ => ""
  end.

(** The bytes of a run of answers, in order. *)
Definition bytes_of_all (rs : list RecvResult) : string :=
  fold_right (fun r acc => bytes_of r ++ acc) "" rs.

(** The connection flag is set only while a client descriptor is
    held. *)
Definition connection_consistent {P : Type} (c : Comm P) : Prop :=
  mHasActiveConnection c = true -> (0 <= mClientSocket c)%Z.

(** A call of the read loop on a descriptor that is open (not
    negative), or the sleep between two attempts. *)
Definition on_open_descriptor (call : Syscall) : bool :=
  match call with
  | SysAccept fd | SysSetsockopt fd | SysRecv fd | SysClose fd => (0 <=? fd)%Z
  | SysSleep => true
  | _ => false
  end.

(** What the property store holds after a call into the base class,
    whichever way the call ended. *)
Definition store_after {Store : Type}
    (o : VssVehicleEmulator.SetOutcome Store) : Store :=
  match o with
  | VssVehicleEmulator.SetReturns _ st => st
  | VssVehicleEmulator.SetThrows st => st
  end.

(** The bounds a rule has, as a predicate on a value. *)
Definition within_bounds (r : AndroidVssConverter.ConversionRule) (v : Q) : Prop :=
  match AndroidVssConverter.min_value r with
  | Some lo => (lo <= v)%Q
  | None => True
  end /\
  match AndroidVssConverter.max_value r with
  | Some hi => (v <= hi)%Q
  | None => True
  end.

(** [w'] has logged nothing beyond [w] but calls on open descriptors
    and sleeps. *)
Definition only_open_calls (w w' : World) : Prop :=
  forall call,
    In call (log w') -> In call (log w) \/ on_open_descriptor call = true.

(** The recording processor of [c'] holds what that of [c] held,
    followed by clean records only. *)
Definition handed_clean (c c' : Comm (list string)) : Prop :=
  exists new,
    mProcessor c' = option_map (fun seen => (seen ++ new)%list) (mProcessor c) /\
    Forall clean_record new.

(** The update of the store goes through: the base class answers OK
    and the subscribers, if any, are told without an exception. *)
Definition update_goes_through {Store Hal : Type}
    `{VssVehicleEmulator.VehicleEmulator Store Hal}
    (e : VssVehicleEmulator.Emulator Store Hal)
    (pv : AndroidVssConverter.VehiclePropValue) : Prop :=
  exists st',
    VssVehicleEmulator.doSetProperty (VssVehicleEmulator.store e) pv
      = VssVehicleEmulator.SetReturns VssVehicleEmulator.OK st' /\
    match VssVehicleEmulator.mHal e with
    | Some h => VssVehicleEmulator.setPropertyFromVehicle h pv <> None
    | None => True
    end.


(** A running listener with a peer on descriptor 4, wired to the
    recording processor. *)
Definition recording_listener : Comm (list string) := connected [] 33445 3 4.

(** A running listener that waits for a peer. *)
Definition listening_listener : Comm (list string) :=
  {| mProcessor := Some []; mRunning := true; mReadThread := true;
     mPort := 33445; mServerSocket := 3; mClientSocket := -1;
     mHasActiveConnection := false |}.

(** A running listener with a peer, wired to the sample emulator. *)
Definition emulator_listener
  : Comm (VssVehicleEmulator.Emulator VssVehicleEmulator.PropertyStore
            (list AndroidVssConverter.VehiclePropValue)) :=
  connected VssVehicleEmulator.sample_emulator 33445 3 4.

End Shapes.

(** * Properties *)

(** ** Strings *)

Module StdStringFacts.
Import StdString.

Lemma find_absent c s : ~ In c (chars s) -> find c s = None.
Proof.
  induction s as [|a r IH]; simpl; intros Hn; [reflexivity|].
  destruct (Ascii.eqb_spec a c) as [->|Hne]; [tauto|].
  rewrite IH; [reflexivity | tauto].
Qed.

Lemma find_first c pre post :
  ~ In c (chars pre) ->
  find c (pre ++ String c post) = Some (String.length pre).
Proof.
  induction pre as [|a r IH]; simpl; intros Hn.
  - now rewrite Ascii.eqb_refl.
  - destruct (Ascii.eqb_spec a c) as [->|Hne]; [tauto|].
    rewrite IH; [reflexivity | tauto].
Qed.

Lemma find_some c s i :
  find c s = Some i ->
  exists pre post, s = pre ++ String c post /\ String.length pre = i
                   /\ ~ In c (chars pre).
Proof.
  revert i; induction s as [|a r IH]; simpl; intros i Hf; [discriminate|].
  destruct (Ascii.eqb_spec a c) as [->|Hne].
  - injection Hf as <-. exists "", r. simpl. tauto.
  - destruct (find c r) as [j|] eqn:Hr; [|discriminate].
    injection Hf as <-.
    destruct (IH j eq_refl) as (pre & post & -> & Hl & Hn).
    exists (String a pre), post. simpl. repeat split; [congruence|].
    intros [E|E]; [congruence | tauto].
Qed.

Lemma take_app pre post : take (String.length pre) (pre ++ post) = pre.
Proof.
  induction pre as [|a r IH]; simpl; [now destruct post | now rewrite IH].
Qed.

Lemma drop_app pre c post :
  drop (S (String.length pre)) (pre ++ String c post) = post.
Proof.
  induction pre as [|a r IH]; simpl; [now destruct post | exact IH].
Qed.

Lemma length_app_one pre c :
  String.length (pre ++ String c "") - 1 = String.length pre.
Proof.
  assert (E : String.length (pre ++ String c "") = S (String.length pre)).
  { induction pre as [|a r IH]; simpl; [reflexivity | now rewrite IH]. }
  rewrite E. lia.
Qed.

Lemma empty_true s : empty s = true <-> s = "".
Proof. destruct s; simpl; split; congruence. Qed.

End StdStringFacts.

(** ** Boolean parsing *)

Module ConverterUtilsFacts.
Import StdString ConverterUtils.

(** Folding a character to lower case can only have come from the
    character itself or from its upper-case form. *)
Lemma tolower_inv c l : tolower c = l -> c = l \/ c = toupper l.
Proof.
  intros <-.
  destruct c as [[] [] [] [] [] [] [] []]; vm_compute; auto.
Qed.

Lemma tolower_toupper c : is_folded c = true -> tolower (toupper c) = c.
Proof.
  destruct c as [[] [] [] [] [] [] [] []]; vm_compute; congruence.
Qed.

Lemma is_folded_fix c : is_folded c = true -> tolower c = c.
Proof. unfold is_folded. now intros E%Ascii.eqb_eq. Qed.

Lemma toLower_spells s : same_ignoring_case s (toLower s).
Proof.
  induction s as [|c r IH]; simpl; [constructor|].
  destruct (tolower_inv c _ eq_refl) as [E|E].
  - rewrite <- E. now constructor.
  - rewrite E at 1. now constructor.
Qed.

Lemma spells_toLower s lit :
  all_folded lit = true -> same_ignoring_case s lit -> toLower s = lit.
Proof.
  intros Hf Hs; induction Hs as [|c s lit Hs IH|c s lit Hs IH]; simpl in *;
    [reflexivity| |];
    apply andb_prop in Hf as [Hc Hl]; rewrite (IH Hl); f_equal.
  - now apply is_folded_fix.
  - now apply tolower_toupper.
Qed.

Lemma toLower_in_iff s lits :
  forallb all_folded lits = true ->
  In (toLower s) lits <-> spells_one_of lits s.
Proof.
  intros Hall; split.
  - intros Hin. exists (toLower s). split; [assumption | apply toLower_spells].
  - intros (lit & Hin & Hs).
    rewrite forallb_forall in Hall.
    now rewrite (spells_toLower s lit (Hall lit Hin) Hs).
Qed.

Lemma stringToBool_true s :
  stringToBool s = Some true <-> In (toLower s) true_literals.
Proof.
  unfold stringToBool, true_literals; simpl.
  destruct (String.eqb_spec (toLower s) "true"); [simpl; intuition|].
  destruct (String.eqb_spec (toLower s) "1"); [simpl; intuition|].
  destruct (String.eqb_spec (toLower s) "yes"); [simpl; intuition|].
  destruct (String.eqb_spec (toLower s) "on"); [simpl; intuition|].
  simpl. split.
  - intros E. destruct (_ || _); discriminate.
  - intuition congruence.
Qed.

Lemma stringToBool_false s :
  stringToBool s = Some false <-> In (toLower s) false_literals.
Proof.
  unfold stringToBool, false_literals; simpl.
  destruct (String.eqb_spec (toLower s) "true") as [->|];
    [simpl; split; [discriminate | intuition discriminate]|].
  destruct (String.eqb_spec (toLower s) "1") as [->|];
    [simpl; split; [discriminate | intuition discriminate]|].
  destruct (String.eqb_spec (toLower s) "yes") as [->|];
    [simpl; split; [discriminate | intuition discriminate]|].
  destruct (String.eqb_spec (toLower s) "on") as [->|];
    [simpl; split; [discriminate | intuition discriminate]|].
  simpl.
  destruct (String.eqb_spec (toLower s) "false"); [simpl; intuition|].
  destruct (String.eqb_spec (toLower s) "0"); [simpl; intuition|].
  destruct (String.eqb_spec (toLower s) "no"); [simpl; intuition|].
  destruct (String.eqb_spec (toLower s) "off"); [simpl; intuition|].
  simpl. split; [discriminate | intuition congruence].
Qed.

(** C5. Boolean parsing is exact: [stringToBool] answers true on the
    strings that spell "true", "1", "yes" or "on" in any mix of upper
    and lower case, and on no other; false on those that spell
    "false", "0", "no" or "off", and on no other; every remaining
    string is an error.  In particular "Yes" parses to true, "0" to
    false, and "maybe" is an error. *)
Theorem stringToBool_exact (s : string) :
  (stringToBool s = Some true <-> spells_one_of true_literals s) /\
  (stringToBool s = Some false <-> spells_one_of false_literals s) /\
  (stringToBool s = None <->
     ~ spells_one_of true_literals s /\ ~ spells_one_of false_literals s) /\
  parse_bool "Yes" = Some true /\
  parse_bool "0" = Some false /\
  parse_bool "maybe" = None.
Proof.
  assert (Ht : stringToBool s = Some true <-> spells_one_of true_literals s).
  { rewrite stringToBool_true. now apply toLower_in_iff. }
  assert (Hf : stringToBool s = Some false <-> spells_one_of false_literals s).
  { rewrite stringToBool_false. now apply toLower_in_iff. }
  repeat split; try reflexivity; try tauto.
  - rewrite <- Ht. congruence.
  - rewrite <- Hf. congruence.
  - intros [Hnt Hnf]. rewrite <- Ht in Hnt. rewrite <- Hf in Hnf.
    destruct (stringToBool s) as [[]|]; congruence.
Qed.

End ConverterUtilsFacts.

(** ** Order of operations of the numeric converter *)

Module AndroidVssConverterFacts.
Import StdString ConverterUtils AndroidVssConverter.

Lemma Qltb_lt x y : Qltb x y = true <-> (x < y)%Q.
Proof.
  unfold Qltb. rewrite negb_true_iff, <- not_true_iff_false, Qle_bool_iff.
  split; [apply Qnot_le_lt | apply Qlt_not_le].
Qed.

Lemma Qltb_ge x y : Qltb x y = false <-> (y <= x)%Q.
Proof.
  unfold Qltb. now rewrite negb_false_iff, Qle_bool_iff.
Qed.

(** Turns every comparison made by the code into a fact about
    rationals. *)
Ltac compare_all :=
  repeat match goal with
    | |- context [Qltb ?x ?y] =>
        let E := fresh "E" in
        destruct (Qltb x y) eqn:E;
        [apply Qltb_lt in E | apply Qltb_ge in E]
    | _ : context [Qltb ?x ?y] |- _ =>
        let E := fresh "E" in
        destruct (Qltb x y) eqn:E;
        [apply Qltb_lt in E | apply Qltb_ge in E]
    end.

(** The guarded multiplication and addition of the generated code
    compute value * multiplier + offset. *)
Lemma guarded_scaling v m o :
  ((if negb (Qeq_bool o 0)
    then (if negb (Qeq_bool m 1) then v * m else v) + o
    else (if negb (Qeq_bool m 1) then v * m else v))
   == applyLinearScaling v m o)%Q.
Proof.
  unfold applyLinearScaling.
  destruct (Qeq_bool o 0) eqn:Eo; destruct (Qeq_bool m 1) eqn:Em; simpl;
    try apply Qeq_bool_eq in Eo; try apply Qeq_bool_eq in Em;
    try rewrite Eo; try rewrite Em; ring.
Qed.

(** The two guarded assignments clamp, provided the bounds are in
    order. *)
Lemma guarded_bounds a b mn mx :
  (a == b)%Q ->
  match mn, mx with Some lo, Some hi => (lo <= hi)%Q | _, _ => True end ->
  (match mx with
   | Some hi =>
       if Qltb hi (match mn with
                   | Some lo => if Qltb a lo then lo else a
                   | None => a
                   end)
       then hi
       else match mn with
            | Some lo => if Qltb a lo then lo else a
            | None => a
            end
   | None => match mn with
             | Some lo => if Qltb a lo then lo else a
             | None => a
             end
   end == spec_clamp b mn mx)%Q.
Proof.
  intros Hab Hord. unfold spec_clamp, clampFloat.
  destruct mn as [lo|], mx as [hi|]; cbn iota in Hord; compare_all;
    try reflexivity; try assumption; lra.
Qed.

(** C1. For a numeric rule whose bounds are in order, the value the
    generated converter produces is clamp(scale(parse(raw))): parsed
    first, scaled as value * multiplier + offset, then clamped to the
    bounds that are present; the property value it materialises carries
    that number.  For the rule with multiplier 3.6 and bounds 0 and
    300, "100" converts to 300, not to the 360 that clamping before
    scaling would give. *)
Theorem convert_is_clamp_scale_parse (r : ConversionRule) (raw : string) :
  is_numeric (data_kind r) = true ->
  bounds_ordered r ->
  opt_Qeq (convertNumeric r raw) (spec_convert r raw) /\
  (forall pv, convert r raw = Some pv ->
     exists q, value pv = Numeric (data_kind r) q /\
               opt_Qeq (Some q) (spec_convert r raw)) /\
  convertNumeric speed_rule "100" = Some (300 # 1)%Q /\
  opt_Qeq (clamp_then_scale speed_rule "100") (Some (360 # 1)%Q) /\
  ~ opt_Qeq (convertNumeric speed_rule "100") (Some (360 # 1)%Q).
Proof.
  intros Hnum Hord.
  assert (Hmain : opt_Qeq (convertNumeric r raw) (spec_convert r raw)).
  { unfold convertNumeric, spec_convert, bounds_ordered in *.
    destruct (parse_numeric (data_kind r) raw) as [v0|]; simpl; [|exact I].
    apply guarded_bounds; [apply guarded_scaling | exact Hord]. }
  split; [exact Hmain|]. split; [|split; [|split]].
  - intros pv Hpv. unfold convert in Hpv.
    destruct (convertNumeric r raw) as [q|] eqn:Eq.
    + exists q. split; [|exact Hmain].
      destruct (data_kind r); simpl in *; try discriminate;
        injection Hpv as <-; reflexivity.
    + destruct (data_kind r); simpl in *; discriminate.
  - vm_compute. reflexivity.
  - vm_compute. reflexivity.
  - vm_compute. discriminate.
Qed.

(** The theorem at the rule and input of the specification's example. *)
Lemma convert_is_clamp_scale_parse_witness :
  is_numeric (data_kind speed_rule) = true /\
  bounds_ordered speed_rule /\
  opt_Qeq (convertNumeric speed_rule "100") (spec_convert speed_rule "100").
Proof.
  assert (Hn : is_numeric (data_kind speed_rule) = true) by reflexivity.
  assert (Hb : bounds_ordered speed_rule) by (vm_compute; discriminate).
  split; [exact Hn|]. split; [exact Hb|].
  exact (proj1 (convert_is_clamp_scale_parse speed_rule "100" Hn Hb)).
Defined.

End AndroidVssConverterFacts.

(** ** The orchestrator *)

Module VssVehicleEmulatorFacts.
Import StdString StdStringFacts ConverterUtils AndroidVssConverter.
Import VssVehicleEmulator.

Lemma parse_at_first_equals pre post :
  ~ In "="%char (chars pre) ->
  parseVssMessage (pre ++ String "=" post) =
    if Nat.eqb (String.length pre) 0
       || Nat.eqb (String.length pre)
                  (String.length (pre ++ String "=" post) - 1)
    then None
    else if empty (trim pre) || empty (trim post) then None
         else Some (trim pre, trim post).
Proof.
  intros Hn. unfold parseVssMessage.
  rewrite (find_first _ _ _ Hn), take_app, drop_app. reflexivity.
Qed.

Lemma malformed_rejected message :
  malformed message -> parseVssMessage message = None.
Proof.
  intros Hm. destruct Hm as [m Hn|post|pre Hn|m pre post [-> Hn] Hemp].
  - unfold parseVssMessage. now rewrite (find_absent _ _ Hn).
  - reflexivity.
  - rewrite (parse_at_first_equals _ _ Hn), length_app_one, Nat.eqb_refl.
    now rewrite orb_true_r.
  - rewrite (parse_at_first_equals _ _ Hn).
    destruct (_ || _); [reflexivity|].
    destruct Hemp as [-> | ->]; simpl; [reflexivity|].
    now rewrite orb_true_r.
Qed.

Lemma accepted_split message vssPath vssValue :
  parseVssMessage message = Some (vssPath, vssValue) ->
  exists pre post,
    split_at_first_equals message pre post /\
    vssPath = trim pre /\ vssValue = trim post /\
    vssPath <> "" /\ vssValue <> "".
Proof.
  intros Hp. unfold parseVssMessage in Hp.
  destruct (find "=" message) as [i|] eqn:Hf; [|discriminate].
  destruct (find_some _ _ _ Hf) as (pre & post & -> & <- & Hn).
  rewrite take_app, drop_app in Hp.
  destruct (_ || _); [discriminate|].
  fold (trim pre) in Hp. fold (trim post) in Hp.
  destruct (empty (trim pre)) eqn:E1; [discriminate|].
  destruct (empty (trim post)) eqn:E2; [discriminate|].
  injection Hp as <- <-. exists pre, post.
  repeat split; try assumption.
  - intros E. rewrite E in E1. discriminate.
  - intros E. rewrite E in E2. discriminate.
Qed.

Section WithCollaborators.
Context {Store Hal : Type} `{VehicleEmulator Store Hal}.
Implicit Types e : Emulator Store Hal.

Lemma updateVhalProperty_counters e pv :
  let e' := snd (updateVhalProperty e pv) in
  mMessagesProcessed e' = mMessagesProcessed e /\
  mMessagesConverted e' = mMessagesConverted e /\
  mConversionErrors e' = mConversionErrors e /\
  mActive e' = mActive e /\ mInitialized e' = mInitialized e.
Proof.
  unfold updateVhalProperty.
  destruct (doSetProperty (store e) pv) as [result st'|st'];
    [destruct (is_OK result);
     [destruct (mHal e) as [h|];
      [destruct (setPropertyFromVehicle h pv)|]|]|];
    simpl; auto.
Qed.

Lemma find_none_absent c s : find c s = None -> ~ In c (chars s).
Proof.
  induction s as [|a r IH]; simpl; [tauto|].
  destruct (Ascii.eqb_spec a c) as [->|Hne]; [discriminate|].
  destruct (find c r); [discriminate|].
  intros _ [E|Hin]; [congruence | now apply IH].
Qed.

Lemma length_app_cons pre c post :
  String.length (pre ++ String c post)
  = S (String.length pre + String.length post).
Proof.
  induction pre as [|a r IH]; [reflexivity|].
  change (String a r ++ String c post) with (String a (r ++ String c post)).
  simpl. now rewrite IH.
Qed.

(** A message that reads pre '=' post, with no '=' in [pre] and with
    something left of both parts once trimmed, is accepted and split
    there. *)
Lemma well_formed_split pre post :
  ~ In "="%char (chars pre) ->
  trim pre <> "" -> trim post <> "" ->
  parseVssMessage (pre ++ String "=" post) = Some (trim pre, trim post).
Proof.
  intros Hn Hp Hv. rewrite (parse_at_first_equals _ _ Hn).
  rewrite length_app_cons.
  destruct pre as [|a pre']; [now elim Hp|].
  destruct post as [|b post']; [now elim Hv|].
  simpl String.length.
  replace (Nat.eqb _ 0) with false by (symmetry; apply Nat.eqb_neq; lia).
  replace (Nat.eqb _ _) with false by (symmetry; apply Nat.eqb_neq; lia).
  cbn [orb].
  destruct (empty (trim (String a pre'))) eqn:E1;
    [apply empty_true in E1; congruence|].
  destruct (empty (trim (String b post'))) eqn:E2;
    [apply empty_true in E2; congruence|].
  reflexivity.
Qed.

Lemma rejected_malformed message :
  parseVssMessage message = None -> malformed message.
Proof.
  intros Hp.
  destruct (find "=" message) as [i|] eqn:Hf.
  - destruct (find_some _ _ _ Hf) as (pre & post & -> & _ & Hn).
    apply (empty_after_trim _ pre post); [now split|].
    destruct (string_dec (trim pre) "") as [E|Hpre]; [now left|].
    destruct (string_dec (trim post) "") as [E|Hpost]; [now right|].
    rewrite (well_formed_split pre post Hn Hpre Hpost) in Hp. discriminate.
  - apply no_equals. now apply find_none_absent.
Qed.

(** C3. A message is split at its first '=': a message that reads
    pre '=' post with no '=' in pre, and with something left of both
    once trimmed, is accepted with the trimmed pre as its path and the
    trimmed post as its value; and whenever the parse succeeds, the
    path and the value are those trimmed texts and neither is empty.
    A message with no '=', with that '=' as its first or as its last
    character, or whose path or value is empty once trimmed, is
    malformed, and these are the only messages the parser rejects: the
    active emulator drops such a message, counts it as received and as
    an error, and leaves the property store, the subscribers and the
    converted counter as they were. *)
Theorem malformed_message_dropped e (message : string) :
  isActive e = true ->
  (forall vssPath vssValue,
     parseVssMessage message = Some (vssPath, vssValue) ->
     exists pre post,
       split_at_first_equals message pre post /\
       vssPath = trim pre /\ vssValue = trim post /\
       vssPath <> "" /\ vssValue <> "") /\
  (forall pre post,
     split_at_first_equals message pre post ->
     trim pre <> "" -> trim post <> "" ->
     parseVssMessage message = Some (trim pre, trim post)) /\
  (parseVssMessage message = None -> malformed message) /\
  (malformed message ->
     parseVssMessage message = None /\
     store (processVssMessage e message) = store e /\
     mHal (processVssMessage e message) = mHal e /\
     mConversionErrors (processVssMessage e message)
       = (mConversionErrors e + 1)%N /\
     mMessagesConverted (processVssMessage e message) = mMessagesConverted e /\
     mMessagesProcessed (processVssMessage e message)
       = (mMessagesProcessed e + 1)%N).
Proof.
  intros Hact. split; [intros p v; apply accepted_split|].
  split; [intros pre post [-> Hn]; now apply well_formed_split|].
  split; [apply rejected_malformed|].
  intros Hm. pose proof (malformed_rejected _ Hm) as Hp.
  unfold processVssMessage. rewrite Hact, Hp. simpl. tauto.
Qed.

(** C4. A well-formed message whose path has no rule in the registry
    is counted as received and as an error, converts nothing and leaves
    the property store and the subscribers untouched; the emulator
    stays active, so the next message is received and counted too. *)
Theorem unknown_signal_counted e (registry : gmap string ConversionRule)
    (message vssPath vssValue : string) :
  isActive e = true ->
  mVssConverter e = convertVssToVhal registry ->
  parseVssMessage message = Some (vssPath, vssValue) ->
  registry !! vssPath = None ->
  mConversionErrors (processVssMessage e message)
    = (mConversionErrors e + 1)%N /\
  mMessagesProcessed (processVssMessage e message)
    = (mMessagesProcessed e + 1)%N /\
  mMessagesConverted (processVssMessage e message) = mMessagesConverted e /\
  store (processVssMessage e message) = store e /\
  mHal (processVssMessage e message) = mHal e /\
  isActive (processVssMessage e message) = true /\
  forall next,
    mMessagesProcessed (processAll e [message; next])
      = (mMessagesProcessed e + 2)%N.
Proof.
  intros Hact Hconv Hp Hnone.
  assert (E : processVssMessage e message = incErrors (incProcessed e)).
  { unfold processVssMessage. rewrite Hact, Hp. simpl.
    rewrite Hconv. unfold convertVssToVhal. now rewrite Hnone. }
  rewrite E. simpl. repeat split; try reflexivity; try assumption.
  intros next. unfold processAll. simpl. rewrite E.
  unfold processVssMessage at 1.
  change (isActive (incErrors (incProcessed e))) with (isActive e).
  rewrite Hact. simpl.
  destruct (parseVssMessage next) as [[p v]|]; simpl; [|lia].
  destruct (mVssConverter e p v) as [pv| |]; simpl; try lia.
  match goal with
  | |- context [updateVhalProperty ?x pv] =>
      pose proof (updateVhalProperty_counters x pv) as Hu;
      destruct (updateVhalProperty x pv) as [[] e2]
  end; simpl in *; destruct Hu as (-> & _); lia.
Qed.

(** The two shapes a handled message can leave the counters in. *)
Lemma processVssMessage_cases e message :
  isActive e = true ->
  mMessagesProcessed (processVssMessage e message)
    = (mMessagesProcessed e + 1)%N /\
  ((mMessagesConverted (processVssMessage e message)
      = (mMessagesConverted e + 1)%N /\
    mConversionErrors (processVssMessage e message) = mConversionErrors e) \/
   (mMessagesConverted (processVssMessage e message) = mMessagesConverted e /\
    mConversionErrors (processVssMessage e message)
      = (mConversionErrors e + 1)%N)).
Proof.
  intros Hact. unfold processVssMessage. rewrite Hact. simpl.
  destruct (parseVssMessage message) as [[p v]|]; simpl; [|auto].
  destruct (mVssConverter e p v) as [pv| |]; simpl; auto.
  match goal with
  | |- context [updateVhalProperty ?x pv] =>
      pose proof (updateVhalProperty_counters x pv) as Hu;
      destruct (updateVhalProperty x pv) as [[] e2]
  end; simpl in *; destruct Hu as (-> & -> & -> & _); auto.
Qed.

Lemma processVssMessage_inactive e message :
  isActive e = false -> processVssMessage e message = e.
Proof. intros Hin. unfold processVssMessage. now rewrite Hin. Qed.

Lemma processVssMessage_balanced e message :
  counters_balanced e -> counters_balanced (processVssMessage e message).
Proof.
  unfold counters_balanced. intros Hb.
  destruct (isActive e) eqn:Hact.
  - destruct (processVssMessage_cases e message Hact)
      as (-> & [(-> & ->) | (-> & ->)]); lia.
  - now rewrite processVssMessage_inactive.
Qed.

Lemma processAll_balanced messages : forall e,
  counters_balanced e -> counters_balanced (processAll e messages).
Proof.
  unfold processAll.
  induction messages as [|m ms IH]; simpl; intros e Hb; [exact Hb|].
  apply IH. now apply processVssMessage_balanced.
Qed.

(** C8. Each message handed to the active emulator raises the
    processed counter by exactly one and exactly one of the converted
    and error counters by exactly one, whichever way the handling goes
    (an exception caught inside included).  So the balance processed =
    converted + errors is kept by every call, holds after any sequence
    of messages from the freshly initialized object, and no call, on an
    active object or not, makes a counter go down. *)
Theorem counters_step e (message : string) :
  isActive e = true ->
  mMessagesProcessed (processVssMessage e message)
    = (mMessagesProcessed e + 1)%N /\
  ((mMessagesConverted (processVssMessage e message)
      = (mMessagesConverted e + 1)%N /\
    mConversionErrors (processVssMessage e message) = mConversionErrors e) \/
   (mMessagesConverted (processVssMessage e message) = mMessagesConverted e /\
    mConversionErrors (processVssMessage e message)
      = (mConversionErrors e + 1)%N)) /\
  (counters_balanced e -> counters_balanced (processVssMessage e message)) /\
  (forall converter h st messages,
     counters_balanced (processAll (initialized converter h st) messages)) /\
  (forall e0 message0,
     (mMessagesProcessed e0
        <= mMessagesProcessed (processVssMessage e0 message0))%N /\
     (mMessagesConverted e0
        <= mMessagesConverted (processVssMessage e0 message0))%N /\
     (mConversionErrors e0
        <= mConversionErrors (processVssMessage e0 message0))%N).
Proof.
  intros Hact.
  pose proof (processVssMessage_cases e message Hact) as (Hp & Hc).
  split; [exact Hp|]. split; [exact Hc|].
  split; [apply processVssMessage_balanced|].
  split; [intros; apply processAll_balanced; reflexivity|].
  intros e0 message0. destruct (isActive e0) eqn:Hact0.
  - destruct (processVssMessage_cases e0 message0 Hact0)
      as (-> & [(-> & ->) | (-> & ->)]); lia.
  - rewrite (processVssMessage_inactive e0 message0 Hact0). lia.
Qed.

(** C9. An emulator that is not active ignores the message: the
    object after the call is the object before it, counters, store and
    subscribers included.  That is the case of the object as
    constructed and of the object after [shutdown]. *)
Theorem inactive_message_ignored e (message : string) :
  isActive e = false ->
  processVssMessage e message = e /\
  (forall h st,
     processVssMessage (constructed h st) message = constructed h st) /\
  processVssMessage (shutdown e) message = shutdown e /\
  (forall e0, processVssMessage (shutdown e0) message = shutdown e0).
Proof.
  intros Hin.
  assert (Hs : forall e0, isActive (shutdown e0) = false).
  { intros e0. unfold shutdown, isActive.
    destruct (mInitialized e0) eqn:Hi; simpl; [reflexivity|].
    rewrite Hi. apply andb_false_r. }
  repeat split; intros; apply processVssMessage_inactive; auto.
Qed.

End WithCollaborators.

(** *** The theorems at the sample registry *)

(** The first '=' is the one that splits. *)
Example split_keeps_later_equals :
  parseVssMessage "a=b=c" = Some ("a", "b=c") /\
  parseVssMessage " Vehicle.Speed = 33.33 " = Some ("Vehicle.Speed", "33.33").
Proof. split; reflexivity. Qed.

(** The end-to-end scenarios of the specification: 33.33 scaled by 3.6
    is stored as 119.988, "on" as true, and each is counted as
    converted. *)
Example speed_end_to_end :
  let e := processVssMessage sample_emulator "Vehicle.Speed=33.33" in
  store e !! (291504647%Z, 0%Z)
    = Some {| prop := 291504647; areaId := 0;
              value := Numeric Float (119988 # 1000) |} /\
  mMessagesConverted e = 1%N /\ mConversionErrors e = 0%N.
Proof. vm_compute. repeat split. Qed.

Example door_end_to_end :
  let e := processVssMessage sample_emulator "Doors.FrontLeft.IsOpen=on" in
  store e !! (287310850%Z, 0%Z)
    = Some {| prop := 287310850; areaId := 0; value := Boolean true |} /\
  mMessagesConverted e = 1%N.
Proof. vm_compute. repeat split. Qed.

Lemma malformed_message_dropped_witness :
  isActive sample_emulator = true /\
  malformed "=value" /\ malformed "path=" /\
  store (processVssMessage sample_emulator "=value") = store sample_emulator /\
  store (processVssMessage sample_emulator "path=") = store sample_emulator /\
  parseVssMessage "a = b=c" = Some ("a", "b=c").
Proof.
  assert (Ha : isActive sample_emulator = true) by reflexivity.
  assert (M1 : malformed "=value") by apply equals_at_start.
  assert (M2 : malformed "path=").
  { apply (equals_at_end "path"). simpl. intuition discriminate. }
  split; [exact Ha|]. split; [exact M1|]. split; [exact M2|].
  split; [|split].
  - exact (proj1 (proj2 (proj2 (proj2 (proj2 (malformed_message_dropped
             sample_emulator "=value" Ha))) M1))).
  - exact (proj1 (proj2 (proj2 (proj2 (proj2 (malformed_message_dropped
             sample_emulator "path=" Ha))) M2))).
  - apply (proj1 (proj2 (malformed_message_dropped
             sample_emulator "a = b=c" Ha)) "a " " b=c").
    + split; [reflexivity|]. simpl. intuition discriminate.
    + discriminate.
    + discriminate.
Defined.

Lemma unknown_signal_counted_witness :
  isActive sample_emulator = true /\
  mVssConverter sample_emulator = convertVssToVhal sample_registry /\
  parseVssMessage "Foo.Bar=1" = Some ("Foo.Bar", "1") /\
  sample_registry !! "Foo.Bar" = None /\
  mConversionErrors (processVssMessage sample_emulator "Foo.Bar=1") = 1%N /\
  store (processVssMessage sample_emulator "Foo.Bar=1") = store sample_emulator.
Proof.
  assert (Ha : isActive sample_emulator = true) by reflexivity.
  assert (Hp : parseVssMessage "Foo.Bar=1" = Some ("Foo.Bar", "1"))
    by reflexivity.
  assert (Hc : mVssConverter sample_emulator = convertVssToVhal sample_registry)
    by reflexivity.
  assert (Hn : sample_registry !! "Foo.Bar" = None)
    by (vm_compute; reflexivity).
  split; [exact Ha|]. split; [exact Hc|]. split; [exact Hp|].
  split; [exact Hn|].
  pose proof (unknown_signal_counted sample_emulator sample_registry
                "Foo.Bar=1" "Foo.Bar" "1" Ha Hc Hp Hn) as (E & _ & _ & S & _).
  split; [exact E | exact S].
Defined.

Lemma counters_step_witness :
  isActive sample_emulator = true /\
  mMessagesProcessed (processVssMessage sample_emulator "Vehicle.Speed=33.33")
    = 1%N.
Proof.
  assert (Ha : isActive sample_emulator = true) by reflexivity.
  split; [exact Ha|].
  exact (proj1 (counters_step sample_emulator "Vehicle.Speed=33.33" Ha)).
Defined.

Lemma inactive_message_ignored_witness :
  isActive (shutdown sample_emulator) = false /\
  processVssMessage (shutdown sample_emulator) "Vehicle.Speed=33.33"
    = shutdown sample_emulator.
Proof.
  assert (Hi : isActive (shutdown sample_emulator) = false) by reflexivity.
  split; [exact Hi|].
  exact (proj1 (inactive_message_ignored (shutdown sample_emulator)
                  "Vehicle.Speed=33.33" Hi)).
Defined.

End VssVehicleEmulatorFacts.

(** ** The listener *)

Module VssSocketCommFacts.
Import StdString VssSocketComm.

Section WithProcessor.
Context {P : Type} `{VssMessageProcessor P}.
Implicit Types (c : Comm P) (w : World).

Lemma only_loop_calls_refl w : only_loop_calls w w.
Proof. intros call Hin. now left. Qed.

Lemma only_loop_calls_trans w1 w2 w3 :
  only_loop_calls w1 w2 -> only_loop_calls w2 w3 -> only_loop_calls w1 w3.
Proof.
  intros H12 H23 call Hin.
  destruct (H23 call Hin) as [Hin2|Hc]; [now apply H12 | now right].
Qed.

Lemma only_loop_calls_emit w w' call :
  read_loop_call call = true ->
  only_loop_calls w w' -> only_loop_calls w (emit call w').
Proof.
  intros Hc Hw x [<-|Hin]; [now right | now apply Hw].
Qed.

Lemma only_loop_calls_recvs w w' rs :
  only_loop_calls w w' -> only_loop_calls w (with_recvs rs w').
Proof. intros Hw x Hin. now apply Hw. Qed.

Lemma listener_kept_refl c : listener_kept c c.
Proof. now repeat split. Qed.

Lemma listener_kept_trans c1 c2 c3 :
  listener_kept c1 c2 -> listener_kept c2 c3 -> listener_kept c1 c3.
Proof.
  unfold listener_kept.
  intros (-> & -> & -> & ->) (-> & -> & -> & ->). now repeat split.
Qed.

Lemma processMessage_kept c message :
  listener_kept c (processMessage c message) /\
  mHasActiveConnection (processMessage c message) = mHasActiveConnection c /\
  mClientSocket (processMessage c message) = mClientSocket c.
Proof.
  unfold processMessage.
  destruct (mProcessor c); [destruct (negb (empty message))|];
    simpl; now repeat split.
Qed.

(** What a call of [readMessage]'s loop leaves behind, however it
    ends. *)
Lemma readMessage_loop_frame rs : forall message w0 w c,
  only_loop_calls w0 w ->
  match readMessage_loop rs message w c with
  | ReadReturned _ w' c' | ReadBlocked w' c' =>
      only_loop_calls w0 w' /\ listener_kept c c' /\
      mProcessor c' = mProcessor c /\ accepts w' = accepts w
  end.
Proof.
  induction rs as [|r rs IH]; intros message w0 w c Hw; simpl;
    destruct (mRunning c && mHasActiveConnection c);
    try (repeat split; try reflexivity; now apply only_loop_calls_recvs).
  assert (Hw1 : only_loop_calls w0 (emit (SysRecv (mClientSocket c)) w))
    by now apply only_loop_calls_emit.
  assert (Hclose :
    only_loop_calls w0
      (with_recvs rs (emit (SysClose (mClientSocket c))
                           (emit (SysRecv (mClientSocket c)) w)))).
  { apply only_loop_calls_recvs. now apply only_loop_calls_emit. }
  destruct r as [buf| |].
  - destruct (negb (empty buf)).
    + destruct (find LF (message ++ c_str buf)) as [pos|].
      * destruct (negb (empty _)).
        -- repeat split; try reflexivity. now apply only_loop_calls_recvs.
        -- apply (IH _ w0 _ c Hw1).
      * apply (IH _ w0 _ c Hw1).
    + repeat split; try reflexivity. exact Hclose.
  - apply (IH _ w0 _ c Hw1).
  - repeat split; try reflexivity. exact Hclose.
Qed.

Lemma readLoop_read_frame w0 w c :
  only_loop_calls w0 w ->
  match readLoop_read w c with
  | Continue w' c' | Blocked w' c' =>
      only_loop_calls w0 w' /\ listener_kept c c'
  end.
Proof.
  intros Hw. unfold readLoop_read, readMessage.
  destruct ((mClientSocket c <? 0)%Z || negb (mHasActiveConnection c)).
  - simpl. split; [exact Hw | apply listener_kept_refl].
  - pose proof (readMessage_loop_frame (recvs w) "" w0 w c Hw) as Hf.
    destruct (readMessage_loop (recvs w) "" w c) as [m w' c'|w' c'].
    + destruct Hf as (Hw' & Hk & _).
      destruct (negb (empty m)); split; try assumption.
      eapply listener_kept_trans; [exact Hk | apply processMessage_kept].
    + destruct Hf as (Hw' & Hk & _). now split.
Qed.

Lemma acceptConnection_frame w0 w c :
  only_loop_calls w0 w ->
  only_loop_calls w0 (snd (fst (acceptConnection w c))) /\
  listener_kept c (snd (acceptConnection w c)).
Proof.
  intros Hw. unfold acceptConnection.
  destruct (mServerSocket c <? 0)%Z; simpl;
    [split; [exact Hw | apply listener_kept_refl]|].
  assert (Hacc : forall rest,
    only_loop_calls w0
      {| setups := setups w; accepts := rest; recvs := recvs w;
         log := SysAccept (mServerSocket c) :: log w |}).
  { intros rest x [<-|Hin]; [now right | now apply Hw]. }
  destruct (accepts w) as [|fd rest]; simpl.
  - split; [apply Hacc | now repeat split].
  - destruct (fd <? 0)%Z; simpl.
    + split; [apply Hacc | now repeat split].
    + split; [|now repeat split].
      apply only_loop_calls_emit; [reflexivity | apply Hacc].
Qed.

Lemma readLoop_turn_frame w0 w c :
  only_loop_calls w0 w ->
  match readLoop_turn w c with
  | Continue w' c' | Blocked w' c' =>
      only_loop_calls w0 w' /\ listener_kept c c'
  end.
Proof.
  intros Hw. unfold readLoop_turn.
  destruct (negb (mHasActiveConnection c)); [|now apply readLoop_read_frame].
  pose proof (acceptConnection_frame w0 w c Hw) as [Ha Hk].
  destruct (acceptConnection w c) as [[accepted w1] c1]; simpl in *.
  destruct (negb accepted).
  - split; [now apply only_loop_calls_emit | exact Hk].
  - pose proof (readLoop_read_frame w0 w1 c1 Ha) as Hr.
    destruct (readLoop_read w1 c1) as [w2 c2|w2 c2];
      (split; [apply Hr | eapply listener_kept_trans; [exact Hk | apply Hr]]).
Qed.

(** The read loop never touches the running flag or the listening
    socket, and issues none but its own calls. *)
Lemma readLoop_frame fuel : forall w0 w c,
  only_loop_calls w0 w ->
  only_loop_calls w0 (run_world (readLoop fuel w c)) /\
  listener_kept c (run_conn (readLoop fuel w c)).
Proof.
  induction fuel as [|fuel IH]; intros w0 w c Hw; simpl.
  - split; [exact Hw | apply listener_kept_refl].
  - destruct (mRunning c); simpl; [|split; [exact Hw | apply listener_kept_refl]].
    pose proof (readLoop_turn_frame w0 w c Hw) as Ht.
    destruct (readLoop_turn w c) as [w1 c1|w1 c1]; simpl.
    + destruct Ht as [Hw1 Hk1]. destruct (IH w0 w1 c1 Hw1) as [Hw2 Hk2].
      split; [exact Hw2 | eapply listener_kept_trans; eassumption].
    + exact Ht.
Qed.

(** End of stream is acted on whatever the accumulator holds. *)
Lemma readMessage_loop_eof rest message w c :
  mRunning c = true -> mHasActiveConnection c = true ->
  readMessage_loop (RecvEOF :: rest) message w c
  = ReadReturned ""
      (with_recvs rest
         (emit (SysClose (mClientSocket c))
               (emit (SysRecv (mClientSocket c)) w)))
      (set_client (-1) (set_active false c)).
Proof.
  intros Hr Ha. cbn [readMessage_loop RecvEOF]. now rewrite Hr, Ha.
Qed.

(** Up to the first end of stream, a call of [readMessage] either
    reaches it, or returns a record before it, having used up at least
    one answer. *)
Lemma readMessage_loop_until_eof script : forall rest acc w c,
  mRunning c = true -> mHasActiveConnection c = true ->
  Forall alive script ->
  (exists w',
     readMessage_loop (script ++ RecvEOF :: rest) acc w c
       = ReadReturned "" w' (set_client (-1) (set_active false c)) /\
     recvs w' = rest /\ accepts w' = accepts w /\
     In (SysClose (mClientSocket c)) (log w')) \/
  (exists m w' script',
     readMessage_loop (script ++ RecvEOF :: rest) acc w c
       = ReadReturned m w' c /\
     empty m = false /\
     recvs w' = (script' ++ RecvEOF :: rest)%list /\
     Forall alive script' /\
     List.length script' < List.length script /\
     accepts w' = accepts w).
Proof.
  induction script as [|r script IH]; intros rest acc w c Hr Ha Halive.
  - left. cbn [app]. rewrite (readMessage_loop_eof rest acc w c Hr Ha).
    eexists. split; [reflexivity|]. simpl. auto.
  - inversion Halive as [|? ? Hal Halive']; subst.
    assert (Hstep : forall acc' ,
      (exists w',
         readMessage_loop (script ++ RecvEOF :: rest) acc'
           (emit (SysRecv (mClientSocket c)) w) c
           = ReadReturned "" w' (set_client (-1) (set_active false c)) /\
         recvs w' = rest /\ accepts w' = accepts w /\
         In (SysClose (mClientSocket c)) (log w')) \/
      (exists m w' script',
         readMessage_loop (script ++ RecvEOF :: rest) acc'
           (emit (SysRecv (mClientSocket c)) w) c
           = ReadReturned m w' c /\
         empty m = false /\
         recvs w' = (script' ++ RecvEOF :: rest)%list /\
         Forall alive script' /\
         List.length script' < List.length (r :: script) /\
         accepts w' = accepts w)).
    { intros acc'.
      destruct (IH rest acc' (emit (SysRecv (mClientSocket c)) w) c
                  Hr Ha Halive')
        as [(w' & E & H1 & H2 & H3) | (m & w' & s' & E & H1 & H2 & H3 & H4 & H5)].
      - left. exists w'. now repeat split.
      - right. exists m, w', s'. repeat split; try assumption.
        simpl. lia. }
    cbn [app readMessage_loop]. rewrite Hr, Ha. cbn [andb].
    destruct r as [buf| |]; [|apply Hstep|contradiction Hal].
    simpl in Hal. destruct buf as [|b0 buf']; [congruence|]. cbn [empty negb].
    destruct (find LF (acc ++ c_str (String b0 buf'))) as [pos|];
      [|apply Hstep].
    destruct (empty (erase_after_last
                (take pos (acc ++ c_str (String b0 buf'))))) eqn:Ee;
      cbn [negb]; [apply Hstep|].
    right. eexists _, _, script. split; [reflexivity|].
    split; [exact Ee|]. split; [reflexivity|]. split; [exact Halive'|].
    split; [simpl; lia | reflexivity].
Qed.

(** A call that is still waiting after a run of answers goes through
    that run in the same way when more answers follow. *)
Lemma readMessage_loop_blocked script : forall acc w c w0 c0 tail,
  readMessage_loop script acc w c = ReadBlocked w0 c0 ->
  mRunning c = true /\ mHasActiveConnection c = true /\
  exists acc' w',
    readMessage_loop (script ++ tail) acc w c
      = readMessage_loop tail acc' w' c.
Proof.
  induction script as [|r script IH]; intros acc w c w0 c0 tail;
    cbn [app readMessage_loop];
    destruct (mRunning c) eqn:Hr; destruct (mHasActiveConnection c) eqn:Ha;
    cbn [andb]; try discriminate.
  - intros _. repeat split. now exists acc, w.
  - destruct r as [buf| |]; try discriminate.
    + destruct (negb (empty buf)); [|discriminate].
      destruct (find LF (acc ++ c_str buf)) as [pos|].
      * destruct (negb (empty _)); [discriminate|].
        intros E. destruct (IH _ _ _ _ _ tail E) as (_ & _ & Hx).
        now repeat split.
      * intros E. destruct (IH _ _ _ _ _ tail E) as (_ & _ & Hx).
        now repeat split.
    + intros E. destruct (IH _ _ _ _ _ tail E) as (_ & _ & Hx).
      now repeat split.
Qed.

Lemma turn_when_connected w c :
  mHasActiveConnection c = true -> (0 <= mClientSocket c)%Z ->
  readLoop_turn w c =
    match readMessage_loop (recvs w) "" w c with
    | ReadReturned message w' c' =>
        if negb (empty message) then Continue w' (processMessage c' message)
        else Continue w' c'
    | ReadBlocked w' c' => Blocked w' c'
    end.
Proof.
  intros Hact Hfd. unfold readLoop_turn, readLoop_read, readMessage.
  rewrite Hact. simpl.
  now replace (mClientSocket c <? 0)%Z with false by (symmetry; lia).
Qed.

Lemma readLoop_resumes turns : forall w c w1 c1 fuel,
  readLoop turns w c = Turning w1 c1 ->
  readLoop (turns + fuel) w c = readLoop fuel w1 c1.
Proof.
  induction turns as [|turns IH]; intros w c w1 c1 fuel; simpl.
  - intros E. now injection E as <- <-.
  - destruct (mRunning c); [|discriminate].
    destruct (readLoop_turn w c) as [w' c'|w' c']; [apply IH | discriminate].
Qed.

(** The loop, turn after turn, up to the first end of stream: it gets
    there, and is then running without a connection. *)
Lemma readLoop_reaches_eof (rest : list RecvResult) (n : nat) :
  forall script w c,
  List.length script <= n ->
  mRunning c = true -> mHasActiveConnection c = true ->
  (0 <= mClientSocket c)%Z ->
  Forall alive script ->
  recvs w = (script ++ RecvEOF :: rest)%list ->
  exists turns w1 c1,
    1 <= turns <= S (List.length script) /\
    readLoop turns w c = Turning w1 c1 /\
    isRunning c1 = true /\
    mHasActiveConnection c1 = false /\
    mClientSocket c1 = (-1)%Z /\
    mServerSocket c1 = mServerSocket c /\
    recvs w1 = rest /\ accepts w1 = accepts w /\
    In (SysClose (mClientSocket c)) (log w1) /\
    ((exists w0 c0, readMessage_loop script "" w c = ReadBlocked w0 c0) ->
     readLoop_turn w c = Continue w1 c1 /\ mProcessor c1 = mProcessor c).
Proof.
  induction n as [|n IH]; intros script w c Hlen Hrun Hact Hfd Halive Hrecvs;
    pose proof (turn_when_connected w c Hact Hfd) as Hturn;
    rewrite Hrecvs in Hturn;
    destruct (readMessage_loop_until_eof script rest "" w c Hrun Hact Halive)
      as [(w' & E & H1 & H2 & H3) | (m & w' & s' & E & Hm & H1 & H2 & H3 & H4)];
    try (exfalso; lia).
  1,2: (rewrite E in Hturn; cbn [empty negb] in Hturn;
        exists 1, w', (set_client (-1) (set_active false c));
        split; [lia|];
        split; [cbn [readLoop]; now rewrite Hrun, Hturn|];
        repeat split; try assumption; try reflexivity).
  rewrite E, Hm in Hturn. cbn [negb] in Hturn.
  destruct (processMessage_kept c m) as ((Kr & Ks & _) & Ka & Kc).
  destruct (IH s' w' (processMessage c m)) as
    (turns & w1 & c1 & Hb & Hloop & P1 & P2 & P3 & P4 & P5 & P6 & P7 & _);
    try assumption; try congruence; try lia.
  rewrite Ks in P4. rewrite Kc in P7. rewrite H4 in P6.
  exists (S turns), w1, c1.
  split; [lia|].
  split; [cbn [readLoop]; now rewrite Hrun, Hturn|].
  do 7 (split; [assumption|]).
  intros (w0 & c0 & Hblocked). exfalso.
  destruct (readMessage_loop_blocked script "" w c w0 c0
              (RecvEOF :: rest) Hblocked) as (_ & _ & acc' & w'' & Hx).
  rewrite Hx, (readMessage_loop_eof rest acc' w'' c Hrun Hact) in E.
  injection E as <- _ _. discriminate.
Qed.

(** C6. When the peer disconnects while the listener is running,
    whatever came before the end of stream (timeouts, whole records,
    part of a record, blank lines), the loop reaches the end of stream
    within as many turns as there were answers, plus one, and is then
    still running, with the peer marked lost, its descriptor closed
    and the listening socket as it was; if no record was completed
    before the end of stream, that is the very turn in which the read
    observed it, and the processor was handed nothing.  On the next
    turn the loop accepts on that same socket, and a peer that arrives
    is taken as the new connection.  End of stream is acted on whatever
    the accumulator holds.  In any run of the loop the running flag and
    the listening socket are never changed, and no connect, socket,
    bind or listen call is issued. *)
Theorem peer_disconnect_back_to_accepting
    w c (script rest : list RecvResult) (fd : Z) (acs : list Z) :
  mRunning c = true ->
  mHasActiveConnection c = true ->
  (0 <= mClientSocket c)%Z ->
  (0 <= mServerSocket c)%Z ->
  Forall alive script ->
  recvs w = (script ++ RecvEOF :: rest)%list ->
  accepts w = fd :: acs ->
  (0 <= fd)%Z ->
  (exists turns w1 c1,
     1 <= turns <= S (List.length script) /\
     readLoop turns w c = Turning w1 c1 /\
     isRunning c1 = true /\
     mHasActiveConnection c1 = false /\
     mClientSocket c1 = (-1)%Z /\
     mServerSocket c1 = mServerSocket c /\
     recvs w1 = rest /\
     In (SysClose (mClientSocket c)) (log w1) /\
     ((exists w0 c0, readMessage_loop script "" w c = ReadBlocked w0 c0) ->
      readLoop_turn w c = Continue w1 c1 /\ mProcessor c1 = mProcessor c) /\
     exists w2 c2,
       acceptConnection w1 c1 = (true, w2, c2) /\
       readLoop_turn w1 c1 = readLoop_read w2 c2 /\
       isRunning c2 = true /\
       mHasActiveConnection c2 = true /\
       mClientSocket c2 = fd /\
       mServerSocket c2 = mServerSocket c /\
       In (SysAccept (mServerSocket c)) (log w2) /\
       only_loop_calls w w2 /\
       forall fuel,
         readLoop (turns + S fuel) w c =
           match readLoop_read w2 c2 with
           | Continue w3 c3 => readLoop fuel w3 c3
           | Blocked w3 c3 => Waiting w3 c3
           end) /\
  (forall message w0,
     readMessage_loop (RecvEOF :: rest) message w0 c
     = ReadReturned ""
         (with_recvs rest
            (emit (SysClose (mClientSocket c))
                  (emit (SysRecv (mClientSocket c)) w0)))
         (set_client (-1) (set_active false c))) /\
  (forall fuel w0 c0,
     isRunning (run_conn (readLoop fuel w0 c0)) = isRunning c0 /\
     mServerSocket (run_conn (readLoop fuel w0 c0)) = mServerSocket c0 /\
     forall call,
       In call (log (run_world (readLoop fuel w0 c0))) ->
       read_loop_call call = false ->
       In call (log w0)).
Proof.
  intros Hrun Hact Hcli Hsrv Halive Hrecvs Haccepts Hfd.
  split; [|split].
  - destruct (readLoop_reaches_eof rest (List.length script) script w c
                (le_n _) Hrun Hact Hcli Halive Hrecvs)
      as (turns & w1 & c1 & Hb & Hloop & P1 & P2 & P3 & P4 & P5 & P6 & P7 & P8).
    exists turns, w1, c1.
    do 8 (split; [assumption|]). split; [exact P8|].
    assert (Haccept :
      acceptConnection w1 c1
      = (true,
         emit (SysSetsockopt fd)
           {| setups := setups w1; accepts := acs; recvs := recvs w1;
              log := SysAccept (mServerSocket c) :: log w1 |},
         set_active true (set_client fd c1))).
    { unfold acceptConnection. rewrite P4.
      replace (mServerSocket c <? 0)%Z with false by (symmetry; lia).
      rewrite P6, Haccepts. cbn [set_client mClientSocket].
      replace (fd <? 0)%Z with false by (symmetry; lia). reflexivity. }
    assert (Hnext : readLoop_turn w1 c1
                    = readLoop_read
                        (emit (SysSetsockopt fd)
                           {| setups := setups w1; accepts := acs;
                              recvs := recvs w1;
                              log := SysAccept (mServerSocket c) :: log w1 |})
                        (set_active true (set_client fd c1))).
    { unfold readLoop_turn. rewrite P2, Haccept. reflexivity. }
    eexists _, _. split; [exact Haccept|]. split; [exact Hnext|].
    split; [exact P1|]. split; [reflexivity|]. split; [reflexivity|].
    split; [exact P4|]. split; [simpl; auto|]. split.
    + pose proof (readLoop_frame turns w w c (only_loop_calls_refl w))
        as [Hw1 _].
      rewrite Hloop in Hw1. simpl in Hw1.
      pose proof (acceptConnection_frame w w1 c1 Hw1) as [Hw2 _].
      rewrite Haccept in Hw2. exact Hw2.
    + intros fuel. rewrite (readLoop_resumes turns w c w1 c1 (S fuel) Hloop).
      cbn [readLoop]. unfold isRunning in P1. rewrite P1, Hnext. reflexivity.
  - intros message w0. now apply readMessage_loop_eof.
  - intros fuel w0 c0.
    destruct (readLoop_frame fuel w0 w0 c0 (only_loop_calls_refl w0))
      as [Hw (Hr & Hs & _)].
    split; [exact Hr|]. split; [exact Hs|].
    intros call Hin Hno. destruct (Hw call Hin) as [Hold|Hyes];
      [exact Hold | congruence].
Qed.

(** C10. [start] on a listener that is already running returns true
    and changes nothing: no system call is made (so no socket is
    created or bound), no thread is spawned, and the object is as it
    was; starting again any number of times is the same as not
    starting. *)
Theorem start_when_running w c :
  mRunning c = true ->
  start w c = (Returns true, w, c) /\
  log (snd (fst (start w c))) = log w /\
  mReadThread (snd (start w c)) = mReadThread c /\
  mServerSocket (snd (start w c)) = mServerSocket c /\
  isRunning (snd (start w c)) = true /\
  start (snd (fst (start w c))) (snd (start w c)) = start w c.
Proof.
  intros Hrun.
  assert (E : start w c = (Returns true, w, c))
    by (unfold start; now rewrite Hrun).
  rewrite E. simpl. rewrite E. now repeat split.
Qed.

(** What [stop] does on the calling thread: the flag is cleared, both
    descriptors are closed, the thread handle is joined.  What the read
    thread does meanwhile is outside this sequential account. *)
Lemma stop_leaves_stopped w c :
  mRunning c = true ->
  isRunning (snd (stop w c)) = false /\
  mReadThread (snd (stop w c)) = false /\
  (mServerSocket (snd (stop w c)) < 0)%Z /\
  (mClientSocket (snd (stop w c)) < 0)%Z /\
  stop (fst (stop w c)) (snd (stop w c)) = stop w c.
Proof.
  intros Hrun. unfold stop, closeSocket. rewrite Hrun. simpl.
  destruct (0 <=? mClientSocket c)%Z eqn:Ec; simpl;
    destruct (0 <=? mServerSocket c)%Z eqn:Es; simpl;
    destruct (mReadThread c) eqn:Et; simpl;
    rewrite ?Ec, ?Es, ?Et; simpl;
    try apply Z.leb_gt in Ec; try apply Z.leb_gt in Es;
    repeat split; try reflexivity; lia.
Qed.

End WithProcessor.

(** *** The theorems on a recording listener *)

Lemma peer_disconnect_back_to_accepting_witness :
  let w := scripted [7%Z]
             [RecvBytes (line "x=1"); RecvBytes "y="; RecvTimeout; RecvEOF;
              RecvBytes (line "z=3")] in
  let c := connected ([] : list string) 33445 3 4 in
  exists turns w1 c1,
    readLoop turns w c = Turning w1 c1 /\
    isRunning c1 = true /\
    mHasActiveConnection c1 = false.
Proof.
  intros w c.
  destruct (proj1 (peer_disconnect_back_to_accepting w c
                     [RecvBytes (line "x=1"); RecvBytes "y="; RecvTimeout]
                     [RecvBytes (line "z=3")] 7%Z []
                     eq_refl eq_refl ltac:(simpl; lia) ltac:(simpl; lia)
                     ltac:(repeat constructor; discriminate)
                     eq_refl eq_refl ltac:(lia)))
    as (turns & w1 & c1 & _ & Hloop & Hrun & Hlost & _).
  exists turns, w1, c1. repeat split; assumption.
Defined.

Lemma start_when_running_witness :
  mRunning (connected ([] : list string) 33445 3 4) = true /\
  start (scripted [] []) (connected ([] : list string) 33445 3 4)
  = (Returns true, scripted [] [], connected ([] : list string) 33445 3 4).
Proof.
  split; [reflexivity|].
  exact (proj1 (start_when_running (scripted [] [])
                  (connected ([] : list string) 33445 3 4) eq_refl)).
Defined.

(** C2. The framer does not buffer across calls of [readMessage]: the
    bytes that follow a record's terminator in the same read are held
    in a local of the call and are gone when it returns.  The stream
    "a=1\nb=2\n" has the two records "a=1" and "b=2"; read in two
    pieces, one per line, both are handed over; read in one piece, only
    "a=1" is, however long the loop runs, and bytes that arrive later
    do not bring "b=2" back. *)
Theorem framer_drops_bytes_after_terminator :
  let one_read := [RecvBytes (line "a=1" ++ line "b=2")] in
  let two_reads := [RecvBytes (line "a=1"); RecvBytes (line "b=2")] in
  let listener := connected ([] : list string) 33445 3 4 in
  (forall BUFFER_SIZE,
     9 <= BUFFER_SIZE -> Forall (fits_buffer BUFFER_SIZE) one_read) /\
  Framer.complete_records (line "a=1" ++ line "b=2") = ["a=1"; "b=2"] /\
  delivered (readLoop 3 (scripted [] two_reads) listener) = ["a=1"; "b=2"] /\
  (forall fuel,
     delivered (readLoop (S fuel) (scripted [] one_read) listener) = ["a=1"]) /\
  (forall fuel,
     delivered (readLoop (S (S fuel))
                  (scripted [] (one_read ++ [RecvBytes (line "c=3")])%list)
                  listener)
     = ["a=1"; "c=3"]) /\
  ~ buffers_across_reads.
Proof.
  intros one_read two_reads listener.
  assert (Hone : forall fuel,
    delivered (readLoop (S fuel) (scripted [] one_read) listener) = ["a=1"]).
  { intros [|fuel]; reflexivity. }
  split; [intros B HB; repeat constructor; simpl; lia|].
  split; [reflexivity|]. split; [reflexivity|]. split; [exact Hone|].
  split; [intros [|fuel]; reflexivity|].
  intros Hclaim.
  destruct (Hclaim [line "a=1" ++ line "b=2"]) as [fuel Hfuel].
  - constructor; [|constructor].
    split; [discriminate|]. simpl. intuition discriminate.
  - destruct fuel as [|fuel].
    + discriminate Hfuel.
    + change (map RecvBytes [line "a=1" ++ line "b=2"]) with one_read in Hfuel.
      change (connected [] 33445 3 4) with listener in Hfuel.
      rewrite Hone in Hfuel. discriminate Hfuel.
Qed.

End VssSocketCommFacts.

(** ** Trimming *)

Module TrimFacts.
Import StdString StdStringFacts Shapes ConverterUtils.

Lemma app_nil_s b : "" ++ b = b.
Proof. reflexivity. Qed.

Lemma app_cons_s x r b : String x r ++ b = String x (r ++ b).
Proof. reflexivity. Qed.

(** Pushes appends through the constructors of their left operand. *)
Ltac sapp := rewrite ?app_cons_s, ?app_nil_s in *.

Lemma chars_app a b : chars (a ++ b) = (chars a ++ chars b)%list.
Proof.
  induction a as [|x r IH]; sapp; simpl; [reflexivity | now rewrite IH].
Qed.

Lemma app_assoc_s a b c : (a ++ b) ++ c = a ++ (b ++ c).
Proof. induction a as [|x r IH]; sapp; [reflexivity | now f_equal]. Qed.

Lemma app_empty_r a : a ++ "" = a.
Proof. induction a as [|x r IH]; sapp; [reflexivity | now f_equal]. Qed.

Lemma length_app a b :
  String.length (a ++ b) = String.length a + String.length b.
Proof.
  induction a as [|x r IH]; sapp; simpl; [reflexivity | now rewrite IH].
Qed.

Lemma find_last_none s : find_last_not_of_ws s = None <-> all_ws s = true.
Proof.
  induction s as [|a r IH]; simpl; [tauto|].
  destruct (find_last_not_of_ws r) as [i|].
  - split; [discriminate|]. intros [_ Hr]%andb_prop.
    apply IH in Hr. discriminate.
  - destruct (is_ws a); simpl; [|split; discriminate].
    split; intros _; [now apply IH | reflexivity].
Qed.

Lemma erase_after_last_blank s :
  all_ws s = true -> erase_after_last s = "".
Proof.
  intros Hs. unfold erase_after_last.
  rewrite (proj2 (find_last_none s) Hs). now destruct s.
Qed.

(** The trailing erase, one character at a time. *)
Lemma erase_after_last_cons a r :
  erase_after_last (String a r) =
    if all_ws r && is_ws a then "" else String a (erase_after_last r).
Proof.
  unfold erase_after_last. simpl.
  destruct (find_last_not_of_ws r) as [i|] eqn:E.
  - destruct (all_ws r) eqn:Hr; [apply find_last_none in Hr; congruence|].
    reflexivity.
  - rewrite (proj1 (find_last_none r) E). simpl.
    destruct (is_ws a); [reflexivity|]. now destruct r.
Qed.

(** The leading erase, one character at a time. *)
Lemma erase_before_first_cons a r :
  erase_before_first (String a r) =
    if is_ws a then erase_before_first r else String a r.
Proof.
  unfold erase_before_first. simpl.
  destruct (is_ws a); [|reflexivity].
  now destruct (find_first_not_of_ws r).
Qed.

Lemma all_ws_app a b : all_ws (a ++ b) = all_ws a && all_ws b.
Proof.
  induction a as [|x r IH]; simpl; [reflexivity|].
  now rewrite IH, andb_assoc.
Qed.

Lemma last_char_cons a r :
  last_char (String a r) = if empty r then Some a else last_char r.
Proof. now destruct r. Qed.

Lemma app_empty_inv a b : a ++ b = "" -> a = "" /\ b = "".
Proof. destruct a; sapp; [tauto | discriminate]. Qed.

Lemma ends_solid_not_blank s : ends_solid s = true -> all_ws s = false.
Proof.
  unfold ends_solid. induction s as [|a r IH]; [discriminate|].
  rewrite last_char_cons. simpl. destruct r as [|b r'].
  - simpl. intros E. apply negb_true_iff in E. now rewrite E.
  - intros E. cbn [empty] in E. rewrite (IH E). apply andb_false_r.
Qed.

Lemma ends_solid_app a b : ends_solid b = true -> ends_solid (a ++ b) = true.
Proof.
  unfold ends_solid. intros Hb.
  induction a as [|x r IH]; sapp; [exact Hb|].
  rewrite last_char_cons. destruct (empty (r ++ b)) eqn:E; [|exact IH].
  apply empty_true, app_empty_inv in E as [_ ->]. discriminate.
Qed.

(** What the trailing erase removes is blank, and what it leaves does
    not end in a blank. *)
Lemma erase_after_last_split s :
  exists r, s = erase_after_last s ++ r /\ all_ws r = true /\
            (erase_after_last s = "" \/ ends_solid (erase_after_last s) = true).
Proof.
  induction s as [|a t (r & Hs & Hr & He)].
  - exists "". auto.
  - rewrite erase_after_last_cons.
    destruct (all_ws t) eqn:Ht; cbn [andb].
    + destruct (is_ws a) eqn:Ha.
      * exists (String a t). sapp. split; [reflexivity|].
        split; [simpl; now rewrite Ha, Ht | now left].
      * rewrite (erase_after_last_blank t Ht).
        exists t. sapp. split; [reflexivity|]. split; [exact Ht|].
        right. unfold ends_solid. simpl. now rewrite Ha.
    + exists r. sapp. rewrite <- Hs. split; [reflexivity|].
      split; [exact Hr|]. right. destruct He as [He|He].
      * rewrite He in Hs. sapp. subst t. congruence.
      * exact (ends_solid_app (String a "") _ He).
Qed.

Lemma erase_before_first_split s :
  exists l, s = l ++ erase_before_first s /\ all_ws l = true /\
            (erase_before_first s = "" \/
             starts_solid (erase_before_first s) = true).
Proof.
  induction s as [|a t (l & Hs & Hl & He)].
  - exists "". auto.
  - rewrite erase_before_first_cons. destruct (is_ws a) eqn:Ha.
    + exists (String a l). sapp. rewrite <- Hs. split; [reflexivity|].
      split; [simpl; now rewrite Ha, Hl | exact He].
    + exists "". sapp. split; [reflexivity|]. split; [reflexivity|].
      right. unfold starts_solid. simpl. now rewrite Ha.
Qed.

Lemma erase_before_first_keeps_end s :
  ends_solid s = true -> ends_solid (erase_before_first s) = true.
Proof.
  induction s as [|a t IH]; [discriminate|].
  rewrite erase_before_first_cons. intros He.
  destruct (is_ws a) eqn:Ha; [|exact He].
  apply IH. unfold ends_solid in *. rewrite last_char_cons in He.
  destruct t; [simpl in He; rewrite Ha in He; discriminate | exact He].
Qed.

Lemma ends_solid_nonempty s : ends_solid s = true -> s <> "".
Proof. now destruct s. Qed.

Lemma erase_after_last_padded p r :
  ends_solid p = true -> all_ws r = true -> erase_after_last (p ++ r) = p.
Proof.
  intros Hp Hr. induction p as [|a t IH]; [discriminate|].
  sapp. rewrite erase_after_last_cons, all_ws_app, Hr, andb_true_r.
  destruct t as [|b t'].
  - sapp. unfold ends_solid in Hp. simpl in Hp.
    apply negb_true_iff in Hp. rewrite Hp. simpl.
    now rewrite (erase_after_last_blank r Hr).
  - rewrite (ends_solid_not_blank (String b t')).
    + simpl. f_equal. apply IH. unfold ends_solid in *.
      now rewrite last_char_cons in Hp.
    + unfold ends_solid in *. now rewrite last_char_cons in Hp.
Qed.

Lemma erase_before_first_padded l p :
  all_ws l = true -> starts_solid p = true -> erase_before_first (l ++ p) = p.
Proof.
  intros Hl Hp. induction l as [|a t IH]; sapp.
  - destruct p as [|b q]; [discriminate|].
    rewrite erase_before_first_cons. unfold starts_solid in Hp. simpl in Hp.
    apply negb_true_iff in Hp. now rewrite Hp.
  - simpl in Hl. apply andb_prop in Hl as [Ha Ht].
    rewrite erase_before_first_cons, Ha. now apply IH.
Qed.

Lemma trim_padded l p r :
  all_ws l = true -> all_ws r = true -> trimmed p = true ->
  trim (l ++ p ++ r) = p.
Proof.
  intros Hl Hr [Hs He]%andb_prop. unfold trim.
  rewrite <- app_assoc_s, erase_after_last_padded;
    [|now apply ends_solid_app|exact Hr].
  now apply erase_before_first_padded.
Qed.

Lemma trim_split s :
  exists l r, s = l ++ trim s ++ r /\ all_ws l = true /\ all_ws r = true /\
              (trim s = "" \/ trimmed (trim s) = true).
Proof.
  destruct (erase_after_last_split s) as (r & Hs & Hr & He).
  destruct (erase_before_first_split (erase_after_last s)) as (l & Hm & Hl & Hb).
  exists l, r. unfold trim. repeat split; try assumption.
  - rewrite <- app_assoc_s, <- Hm. exact Hs.
  - destruct Hb as [Hb|Hb]; [now left|]. right.
    unfold trimmed. rewrite Hb. simpl.
    destruct He as [He|He].
    + rewrite He in Hb. discriminate.
    + now apply erase_before_first_keeps_end.
Qed.

End TrimFacts.

(** ** More on the orchestrator *)

Module EmulatorMoreFacts.
Import StdString StdStringFacts Shapes ConverterUtils AndroidVssConverter.
Import VssVehicleEmulator VssVehicleEmulatorFacts TrimFacts.


Lemma blank_has_no_equals l : all_ws l = true -> ~ In "="%char (chars l).
Proof.
  induction l as [|a t IH]; simpl; [tauto|].
  intros [Ha Ht]%andb_prop [E|Hin]; [subst a; discriminate | now apply IH].
Qed.

Lemma trimmed_nonempty p : trimmed p = true -> p <> "".
Proof. now destruct p. Qed.

(** X1. The trimming idiom of [parseVssMessage] (erase after the last
    non-blank, then erase before the first) removes exactly the blanks
    at both ends: the input is the result with blanks around it, the
    result is empty or has no blank at either end, and a text with no
    blank at its ends comes back unchanged from any blank padding. *)
Theorem trim_idiom_exact (s : string) :
  (exists l r,
     s = l ++ erase_before_first (erase_after_last s) ++ r /\
     all_ws l = true /\ all_ws r = true /\
     (erase_before_first (erase_after_last s) = "" \/
      trimmed (erase_before_first (erase_after_last s)) = true)) /\
  (all_ws s = true -> erase_before_first (erase_after_last s) = "") /\
  (forall l r,
     all_ws l = true -> all_ws r = true -> trimmed s = true ->
     erase_before_first (erase_after_last (l ++ s ++ r)) = s) /\
  erase_before_first (erase_after_last
    (erase_before_first (erase_after_last s)))
  = erase_before_first (erase_after_last s).
Proof.
  split; [exact (trim_split s)|]. split; [|split].
  - intros Hs. now rewrite (erase_after_last_blank s Hs).
  - intros l r. exact (trim_padded l s r).
  - destruct (trim_split s) as (l & r & _ & _ & _ & [E|E]); unfold trim in E.
    + now rewrite E.
    + pose proof (trim_padded "" _ "" eq_refl eq_refl E) as Hp.
      unfold trim in Hp. now rewrite app_nil_s, app_empty_r in Hp.
Qed.

(** X2. [parseVssMessage] accepts exactly the messages that read
    path '=' value with optional blanks around each part, where path
    and value are not empty, have no blank at their ends, and the path
    has no '='; it returns that path and that value.  So writing
    "path=value" and parsing it gives back the pair. *)
Theorem parse_accepts_exactly (message vssPath vssValue : string) :
  parseVssMessage message = Some (vssPath, vssValue) <->
  exists l1 l2 l3 l4,
    message = (l1 ++ vssPath ++ l2) ++ String "=" (l3 ++ vssValue ++ l4) /\
    all_ws l1 = true /\ all_ws l2 = true /\
    all_ws l3 = true /\ all_ws l4 = true /\
    trimmed vssPath = true /\ trimmed vssValue = true /\
    ~ In "="%char (chars vssPath).
Proof.
  split.
  - intros Hp.
    destruct (accepted_split _ _ _ Hp)
      as (pre & post & [-> Hn] & -> & -> & Hpne & Hvne).
    destruct (trim_split pre) as (l1 & l2 & Epre & H1 & H2 & [E|Tp]);
      [congruence|].
    destruct (trim_split post) as (l3 & l4 & Epost & H3 & H4 & [E|Tv]);
      [congruence|].
    exists l1, l2, l3, l4. rewrite <- Epre, <- Epost.
    repeat split; try assumption.
    intros Hin. apply Hn. rewrite Epre, !chars_app.
    apply in_or_app. right. apply in_or_app. now left.
  - intros (l1 & l2 & l3 & l4 & -> & H1 & H2 & H3 & H4 & Tp & Tv & Hn).
    assert (Hpre : ~ In "="%char (chars (l1 ++ vssPath ++ l2))).
    { rewrite !chars_app. intros [Hin|[Hin|Hin]%in_app_or]%in_app_or;
        [now apply (blank_has_no_equals l1) | tauto
        | now apply (blank_has_no_equals l2)]. }
    rewrite (parse_at_first_equals _ _ Hpre).
    rewrite (trim_padded l1 vssPath l2 H1 H2 Tp).
    rewrite (trim_padded l3 vssValue l4 H3 H4 Tv).
    pose proof (trimmed_nonempty _ Tp) as Hp0.
    pose proof (trimmed_nonempty _ Tv) as Hv0.
    rewrite !length_app. simpl String.length. rewrite !length_app.
    destruct vssPath as [|a p]; [congruence|].
    destruct vssValue as [|b v]; [congruence|].
    simpl String.length.
    replace (Nat.eqb _ 0) with false by (symmetry; apply Nat.eqb_neq; lia).
    replace (Nat.eqb _ _) with false by (symmetry; apply Nat.eqb_neq; lia).
    reflexivity.
Qed.

Section WithCollaborators.
Context {Store Hal : Type} `{VehicleEmulator Store Hal}.
Implicit Types e : Emulator Store Hal.

Lemma updateVhalProperty_frame e pv :
  mActive (snd (updateVhalProperty e pv)) = mActive e /\
  mInitialized (snd (updateVhalProperty e pv)) = mInitialized e /\
  mVssConverter (snd (updateVhalProperty e pv)) = mVssConverter e /\
  store (snd (updateVhalProperty e pv))
    = store_after (doSetProperty (store e) pv).
Proof.
  unfold updateVhalProperty.
  destruct (doSetProperty (store e) pv) as [result st'|st'];
    [destruct (is_OK result);
     [destruct (mHal e) as [h|];
      [destruct (setPropertyFromVehicle h pv)|]|]|];
    simpl; auto.
Qed.

Lemma processVssMessage_frame e message :
  mActive (processVssMessage e message) = mActive e /\
  mInitialized (processVssMessage e message) = mInitialized e /\
  mVssConverter (processVssMessage e message) = mVssConverter e.
Proof.
  unfold processVssMessage.
  destruct (negb (isActive e)); [auto|]. simpl.
  destruct (parseVssMessage message) as [[p v]|]; simpl; [|auto].
  destruct (mVssConverter e p v) as [pv| |]; simpl; auto.
  match goal with
  | |- context [updateVhalProperty ?x pv] =>
      pose proof (updateVhalProperty_frame x pv) as (Ha & Hi & Hc & _);
      destruct (updateVhalProperty x pv) as [[] e2]
  end; simpl in *; auto.
Qed.

(** X3. A message handed to the active emulator is counted as
    converted exactly when it parses, the converter produces a value,
    the base class accepts that value with status OK and the
    subscribers, if any, are told without an exception.  Whenever the
    converter produced a value the store is what the base class left,
    even if the message ends up counted as an error; otherwise store
    and subscribers are untouched. *)
Theorem converted_exactly_when e (message : string) :
  isActive e = true ->
  (mMessagesConverted (processVssMessage e message)
     = (mMessagesConverted e + 1)%N <->
   exists vssPath vssValue propValue,
     parseVssMessage message = Some (vssPath, vssValue) /\
     mVssConverter e vssPath vssValue = ConvOk propValue /\
     update_goes_through e propValue) /\
  (forall vssPath vssValue propValue,
     parseVssMessage message = Some (vssPath, vssValue) ->
     mVssConverter e vssPath vssValue = ConvOk propValue ->
     store (processVssMessage e message)
       = store_after (doSetProperty (store e) propValue)) /\
  ((forall vssPath vssValue propValue,
      parseVssMessage message = Some (vssPath, vssValue) ->
      mVssConverter e vssPath vssValue <> ConvOk propValue) ->
   store (processVssMessage e message) = store e /\
   mHal (processVssMessage e message) = mHal e).
Proof.
  intros Hact. unfold processVssMessage, update_goes_through.
  rewrite Hact. simpl.
  destruct (parseVssMessage message) as [[p v]|]; simpl.
  2:{ split; [|split].
      - split; [lia|]. intros (? & ? & ? & E & _). discriminate.
      - intros ? ? ? E. discriminate.
      - auto. }
  destruct (mVssConverter e p v) as [pv| |] eqn:Ec; simpl.
  2,3: (split; [|split];
        [split; [lia | intros (? & ? & ? & E & E' & _);
                       injection E as <- <-; congruence]
        | intros ? ? ? E E'; injection E as <- <-; congruence
        | auto]).
  unfold updateVhalProperty. simpl.
  split; [|split].
  - destruct (doSetProperty (store e) pv) as [result st'|st'] eqn:Ed.
    + destruct result; simpl;
        try (split; [lia | intros (? & ? & ? & E & E' & st & Es & _);
                           injection E as <- <-; rewrite Ec in E';
                           injection E' as <-; rewrite Ed in Es;
                           discriminate]).
      destruct (mHal e) as [h|] eqn:Eh.
      * destruct (setPropertyFromVehicle h pv) eqn:En; simpl.
        -- split; [|reflexivity]. intros _.
           exists p, v, pv. split; [reflexivity|]. split; [exact Ec|].
           exists st'. split; [first [exact Ed | reflexivity]|].
           rewrite ?Eh, En. discriminate.
        -- split; [lia|].
           intros (? & ? & ? & E & E' & st & Es & Hn).
           injection E as <- <-. rewrite Ec in E'. injection E' as <-.
           congruence.
      * simpl. split; [|reflexivity]. intros _.
        exists p, v, pv. split; [reflexivity|]. split; [exact Ec|].
        exists st'. split; [first [exact Ed | reflexivity]|].
        now rewrite ?Eh.
    + simpl. split; [lia|].
      intros (? & ? & ? & E & E' & st & Es & _).
      injection E as <- <-. rewrite Ec in E'. injection E' as <-.
      rewrite Ed in Es. discriminate.
  - intros ? ? ? E E'. injection E as <- <-. rewrite Ec in E'.
    injection E' as <-.
    destruct (doSetProperty (store e) pv) as [result st'|st'];
      [destruct (is_OK result);
       [destruct (mHal e) as [h|];
        [destruct (setPropertyFromVehicle h pv)|]|]|];
      reflexivity.
  - intros Hno. exfalso. exact (Hno p v pv eq_refl Ec).
Qed.

Lemma processAll_counts e (messages : list string) :
  isActive e = true ->
  isActive (processAll e messages) = true /\
  mVssConverter (processAll e messages) = mVssConverter e /\
  mMessagesProcessed (processAll e messages)
    = (mMessagesProcessed e + N.of_nat (List.length messages))%N /\
  (mMessagesConverted (processAll e messages)
   + mConversionErrors (processAll e messages)
   = mMessagesConverted e + mConversionErrors e
     + N.of_nat (List.length messages))%N.
Proof.
  unfold processAll. revert e.
  induction messages as [|m ms IH]; intros e Hact.
  - simpl. repeat split; [assumption | lia | lia].
  - pose proof (processVssMessage_frame e m) as (Ha & Hi & Hc).
    pose proof (processVssMessage_cases e m Hact) as (Hp & Hce).
    assert (Hact' : isActive (processVssMessage e m) = true).
    { unfold isActive in *. now rewrite Ha, Hi. }
    destruct (IH _ Hact') as (I1 & I2 & I3 & I4).
    cbn [fold_left List.length]. rewrite I2, I3, I4, Hp, Hc.
    repeat split; try assumption; try lia.
    all: destruct Hce as [(-> & ->) | (-> & ->)]; lia.
Qed.

(** X4. Handling messages never changes whether the emulator is
    active, nor its converter: an active emulator stays active through
    any sequence of messages and counts every one of them, once as
    processed and once as converted or as an error. *)
Theorem every_message_counted e (messages : list string) :
  isActive e = true ->
  isActive (processAll e messages) = true /\
  mVssConverter (processAll e messages) = mVssConverter e /\
  mMessagesProcessed (processAll e messages)
    = (mMessagesProcessed e + N.of_nat (List.length messages))%N /\
  (mMessagesConverted (processAll e messages)
   + mConversionErrors (processAll e messages)
   = mMessagesConverted e + mConversionErrors e
     + N.of_nat (List.length messages))%N.
Proof. apply processAll_counts. Qed.

End WithCollaborators.

End EmulatorMoreFacts.

(** ** Starting and stopping the listener *)

Module ListenerLifecycleFacts.
Import StdString VssSocketComm Shapes.

Section WithProcessor.
Context {P : Type}.
Implicit Types (c : Comm P) (w : World).


(** X6. [stop] on a running listener whose descriptors are open or -1
    puts the object back as the constructor built it (same processor,
    same port): every descriptor that was open is closed, the thread
    is joined.  So [start] after [stop] does what it does on a new
    object, and stopping twice is stopping once. *)
Theorem stop_resets w c :
  mRunning c = true ->
  mReadThread c = true ->
  connection_consistent c ->
  (-1 <= mServerSocket c)%Z ->
  (-1 <= mClientSocket c)%Z ->
  snd (stop w c) = construct (mProcessor c) (mPort c) /\
  ((0 <= mServerSocket c)%Z ->
   In (SysClose (mServerSocket c)) (log (fst (stop w c)))) /\
  ((0 <= mClientSocket c)%Z ->
   In (SysClose (mClientSocket c)) (log (fst (stop w c)))) /\
  In ThreadJoin (log (fst (stop w c))) /\
  (forall w', start w' (snd (stop w c))
              = start w' (construct (mProcessor c) (mPort c))) /\
  stop (fst (stop w c)) (snd (stop w c)) = stop w c.
Proof.
  intros Hrun Hthr Hcons Hs Hc.
  assert (E : snd (stop w c) = construct (mProcessor c) (mPort c)).
  { unfold stop, closeSocket, construct. rewrite Hrun. simpl.
    destruct (0 <=? mClientSocket c)%Z eqn:Ec; simpl;
      destruct (0 <=? mServerSocket c)%Z eqn:Es; simpl;
      rewrite ?Ec, ?Es, ?Hthr; simpl;
      rewrite ?Z.leb_gt in *;
      destruct c as [pr ru th po se cl ac]; simpl in *;
      unfold set_thread, set_server, set_client, set_active, set_running;
      simpl; f_equal; try lia;
      unfold connection_consistent in Hcons; simpl in Hcons;
      (destruct ac; [specialize (Hcons eq_refl); lia | reflexivity]). }
  split; [exact E|].
  split; [|split; [|split; [|split]]].
  - intros H0. unfold stop, closeSocket. rewrite Hrun. simpl.
    destruct (0 <=? mClientSocket c)%Z; simpl;
      replace (0 <=? mServerSocket c)%Z with true
        by (symmetry; apply Z.leb_le; lia);
      simpl; rewrite Hthr; simpl; auto.
  - intros H0. unfold stop, closeSocket. rewrite Hrun. simpl.
    replace (0 <=? mClientSocket c)%Z with true
      by (symmetry; apply Z.leb_le; lia).
    simpl. destruct (0 <=? mServerSocket c)%Z; simpl;
      rewrite Hthr; simpl; auto.
  - unfold stop, closeSocket. rewrite Hrun. simpl.
    destruct (0 <=? mClientSocket c)%Z; simpl;
      destruct (0 <=? mServerSocket c)%Z; simpl;
      rewrite Hthr; simpl; auto.
  - intros w'. now rewrite E.
  - rewrite E.
    change (stop (fst (stop w c)) (construct (mProcessor c) (mPort c)))
      with (fst (stop w c), construct (mProcessor c) (mPort c)).
    rewrite <- E. now destruct (stop w c).
Qed.

End WithProcessor.

End ListenerLifecycleFacts.

(** ** More on the read loop *)

Module ReadLoopFacts.
Import StdString StdStringFacts VssSocketComm Shapes TrimFacts.
Import VssSocketCommFacts.


Lemma c_str_no_nul buf : ~ In NUL (chars (c_str buf)).
Proof.
  induction buf as [|a r IH]; simpl; [tauto|].
  destruct (Ascii.eqb_spec a NUL) as [->|Hne]; simpl; [tauto|].
  intros [E|Hin]; [congruence | tauto].
Qed.

Lemma c_str_id buf : ~ In NUL (chars buf) -> c_str buf = buf.
Proof.
  induction buf as [|a r IH]; simpl; [reflexivity|]. intros Hn.
  destruct (Ascii.eqb_spec a NUL) as [->|Hne]; [tauto|].
  rewrite IH; [reflexivity | tauto].
Qed.

Lemma c_str_cut a b : c_str (a ++ String NUL b) = c_str a.
Proof.
  induction a as [|x r IH]; sapp; simpl; [reflexivity|].
  now rewrite IH.
Qed.

Lemma c_str_past a x t :
  ~ In NUL (chars a) -> x <> NUL ->
  c_str (a ++ String x t) = a ++ String x (c_str t).
Proof.
  intros Ha Hx. induction a as [|y r IH]; sapp; simpl.
  - destruct (Ascii.eqb_spec x NUL); [contradiction | reflexivity].
  - simpl in Ha. destruct (Ascii.eqb_spec y NUL) as [->|Hne]; [tauto|].
    rewrite IH; [reflexivity | tauto].
Qed.

Lemma not_in_app (x : ascii) a b :
  ~ In x (chars (a ++ b)) <-> ~ In x (chars a) /\ ~ In x (chars b).
Proof. rewrite chars_app, in_app_iff. tauto. Qed.

Section WithProcessor.
Context {P : Type} `{VssMessageProcessor P}.
Implicit Types (c : Comm P) (w : World).

Lemma only_open_calls_refl w : only_open_calls w w.
Proof. intros call Hin. now left. Qed.

Lemma only_open_calls_emit w w' call :
  on_open_descriptor call = true ->
  only_open_calls w w' -> only_open_calls w (emit call w').
Proof. intros Hc Hw x [<-|Hin]; [now right | now apply Hw]. Qed.

Lemma only_open_calls_recvs w w' rs :
  only_open_calls w w' -> only_open_calls w (with_recvs rs w').
Proof. intros Hw x Hin. now apply Hw. Qed.

Lemma lost_consistent c :
  connection_consistent (set_client (-1) (set_active false c)).
Proof. intros E. discriminate E. Qed.

Lemma readMessage_loop_open rs : forall message w0 w c,
  (0 <= mClientSocket c)%Z ->
  only_open_calls w0 w ->
  match readMessage_loop rs message w c with
  | ReadReturned _ w' c' | ReadBlocked w' c' =>
      only_open_calls w0 w' /\ connection_consistent c'
  end.
Proof.
  induction rs as [|r rs IH]; intros message w0 w c Hfd Hw; simpl;
    destruct (mRunning c && mHasActiveConnection c);
    try (split; [now apply only_open_calls_recvs | now intros _]).
  assert (Hopen : (0 <=? mClientSocket c)%Z = true) by now apply Z.leb_le.
  assert (Hw1 : only_open_calls w0 (emit (SysRecv (mClientSocket c)) w))
    by now apply only_open_calls_emit.
  assert (Hclose :
    only_open_calls w0
      (with_recvs rs (emit (SysClose (mClientSocket c))
                           (emit (SysRecv (mClientSocket c)) w)))).
  { apply only_open_calls_recvs. now apply only_open_calls_emit. }
  destruct r as [buf| |].
  - destruct (negb (empty buf)).
    + destruct (find LF (message ++ c_str buf)) as [pos|].
      * destruct (negb (empty _)).
        -- split; [now apply only_open_calls_recvs | now intros _].
        -- now apply IH.
      * now apply IH.
    + split; [exact Hclose | apply lost_consistent].
  - now apply IH.
  - split; [exact Hclose | apply lost_consistent].
Qed.

Lemma processMessage_consistent c message :
  connection_consistent c -> connection_consistent (processMessage c message).
Proof.
  unfold connection_consistent.
  destruct (processMessage_kept c message) as (_ & -> & ->). tauto.
Qed.

Lemma readLoop_read_open w0 w c :
  connection_consistent c ->
  only_open_calls w0 w ->
  match readLoop_read w c with
  | Continue w' c' | Blocked w' c' =>
      only_open_calls w0 w' /\ connection_consistent c'
  end.
Proof.
  intros Hc Hw. unfold readLoop_read, readMessage.
  destruct (mClientSocket c <? 0)%Z eqn:Efd; simpl; [now split|].
  destruct (negb (mHasActiveConnection c)); simpl; [now split|].
  apply Z.ltb_ge in Efd.
  pose proof (readMessage_loop_open (recvs w) "" w0 w c Efd Hw) as Hf.
  destruct (readMessage_loop (recvs w) "" w c) as [m w' c'|w' c'];
    [|exact Hf].
  destruct Hf as [Hw' Hc'].
  destruct (negb (empty m)); split; try assumption.
  now apply processMessage_consistent.
Qed.

Lemma readLoop_turn_open w0 w c :
  connection_consistent c ->
  only_open_calls w0 w ->
  match readLoop_turn w c with
  | Continue w' c' | Blocked w' c' =>
      only_open_calls w0 w' /\ connection_consistent c'
  end.
Proof.
  intros Hc Hw. unfold readLoop_turn.
  destruct (mHasActiveConnection c) eqn:Hact; simpl;
    [now apply readLoop_read_open|].
  unfold acceptConnection.
  destruct (mServerSocket c <? 0)%Z eqn:Es; simpl.
  { split; [now apply only_open_calls_emit | exact Hc]. }
  apply Z.ltb_ge in Es.
  assert (Hacc : forall rest,
    only_open_calls w0
      {| setups := setups w; accepts := rest; recvs := recvs w;
         log := SysAccept (mServerSocket c) :: log w |}).
  { intros rest x [<-|Hin]; [right; simpl; now apply Z.leb_le | now apply Hw]. }
  assert (Hstep : forall fd rest,
    match
      (if negb (if (fd <? 0)%Z then false else true)
       then Continue
              (emit SysSleep
                 {| setups := setups w; accepts := rest; recvs := recvs w;
                    log := SysAccept (mServerSocket c) :: log w |})
              (set_client fd c)
       else readLoop_read
              (emit (SysSetsockopt fd)
                 {| setups := setups w; accepts := rest; recvs := recvs w;
                    log := SysAccept (mServerSocket c) :: log w |})
              (set_active true (set_client fd c)))
    with
    | Continue w' c' | Blocked w' c' =>
        only_open_calls w0 w' /\ connection_consistent c'
    end).
  { intros fd rest. destruct (fd <? 0)%Z eqn:Efd; simpl.
    - split; [apply only_open_calls_emit; [reflexivity | apply Hacc]|].
      intros E. simpl in E. congruence.
    - apply Z.ltb_ge in Efd. apply readLoop_read_open.
      + intros _. exact Efd.
      + apply only_open_calls_emit; [simpl; now apply Z.leb_le | apply Hacc]. }
  destruct (accepts w) as [|fd rest]; simpl.
  - exact (Hstep (-1)%Z []).
  - specialize (Hstep fd rest). simpl in Hstep.
    destruct (fd <? 0)%Z; simpl in *; exact Hstep.
Qed.

(** X7. Whatever the system answers, the read loop issues accept,
    recv, setsockopt and close only on descriptors that are not
    negative (it never reads from or closes the -1 of a lost
    connection), and it keeps the connection flag set only while it
    holds a client descriptor. *)
Theorem read_loop_uses_open_descriptors (fuel : nat) w c :
  connection_consistent c ->
  connection_consistent (run_conn (readLoop fuel w c)) /\
  forall call,
    In call (log (run_world (readLoop fuel w c))) ->
    In call (log w) \/ on_open_descriptor call = true.
Proof.
  intros Hc.
  enough (Hgen : forall w0, only_open_calls w0 w ->
            connection_consistent (run_conn (readLoop fuel w c)) /\
            only_open_calls w0 (run_world (readLoop fuel w c))).
  { destruct (Hgen w (only_open_calls_refl w)) as [H1 H2]. now split. }
  revert w c Hc. induction fuel as [|fuel IH]; intros w c Hc w0 Hw; simpl.
  - now split.
  - destruct (mRunning c); simpl; [|now split].
    pose proof (readLoop_turn_open w0 w c Hc Hw) as Ht.
    destruct (readLoop_turn w c) as [w1 c1|w1 c1]; simpl.
    + destruct Ht as [Hw1 Hc1]. now apply IH.
    + destruct Ht. now split.
Qed.

Lemma erase_after_last_sub (x : ascii) s :
  ~ In x (chars s) -> ~ In x (chars (erase_after_last s)).
Proof.
  destruct (erase_after_last_split s) as (r & Hs & _).
  intros Hn Hin. apply Hn. rewrite Hs, chars_app. apply in_or_app. now left.
Qed.

(** What [readMessage]'s loop returns is empty or a clean record, as
    long as no NUL has slipped into its accumulator. *)
Lemma readMessage_loop_clean rs : forall message w c m w' c',
  ~ In NUL (chars message) ->
  readMessage_loop rs message w c = ReadReturned m w' c' ->
  m = "" \/ clean_record m.
Proof.
  induction rs as [|r rs IH]; intros message w c m w' c' Hnul;
    cbn [readMessage_loop];
    destruct (mRunning c && mHasActiveConnection c);
    try (intros E; injection E as <- _ _; now left); try discriminate.
  destruct r as [buf| |].
  - destruct (negb (empty buf)); [|intros E; injection E as <- _ _; now left].
    assert (Hacc : ~ In NUL (chars (message ++ c_str buf))).
    { apply not_in_app. split; [exact Hnul | apply c_str_no_nul]. }
    destruct (find LF (message ++ c_str buf)) as [pos|] eqn:Ef;
      [|now apply IH].
    destruct (find_some _ _ _ Ef) as (pre & post & Epp & <- & Hlf).
    rewrite Epp, take_app, drop_app. rewrite Epp in Hacc.
    apply not_in_app in Hacc as [Hpre Hpost].
    destruct (empty (erase_after_last pre)) eqn:Ee; cbn [negb].
    + apply IH. intros Hin. apply Hpost. simpl. now right.
    + intros E. injection E as <- _ _. right.
      destruct (erase_after_last_split pre) as (r & _ & _ & [E0|Hsolid]);
        [rewrite E0 in Ee; discriminate|].
      repeat split; [exact Hsolid | |]; now apply erase_after_last_sub.
  - now apply IH.
  - intros E; injection E as <- _ _; now left.
Qed.

(** A run of answers that cannot complete a record is gathered into
    the accumulator, in order. *)
Lemma readMessage_loop_gathers script : forall tail acc w c,
  mRunning c = true -> mHasActiveConnection c = true ->
  Forall quiet script ->
  ~ In LF (chars acc) ->
  exists w1,
    readMessage_loop (script ++ tail) acc w c
      = readMessage_loop tail (acc ++ bytes_of_all script) w1 c /\
    accepts w1 = accepts w /\ setups w1 = setups w /\
    ~ In LF (chars (acc ++ bytes_of_all script)).
Proof.
  induction script as [|r script IH]; intros tail acc w c Hrun Hact Hq Hlf.
  - exists w. simpl. rewrite app_empty_r. auto.
  - inversion Hq as [|? ? Hr Hq']; subst.
    cbn [app readMessage_loop]. rewrite Hrun, Hact. cbn [andb].
    destruct r as [buf| |]; [|clear Hr|contradiction Hr].
    + destruct Hr as (Hne & Hblf & Hbnul).
      destruct buf as [|b0 buf']; [congruence|]. cbn [empty negb].
      rewrite (c_str_id _ Hbnul).
      assert (Hlf' : ~ In LF (chars (acc ++ String b0 buf')))
        by (apply not_in_app; now split).
      rewrite (find_absent _ _ Hlf').
      destruct (IH tail (acc ++ String b0 buf')
                  (emit (SysRecv (mClientSocket c)) w) c Hrun Hact Hq' Hlf')
        as (w1 & E & Ha & Hs & Hl).
      exists w1. cbn [bytes_of_all fold_right bytes_of].
      fold (bytes_of_all script). rewrite <- app_assoc_s.
      now repeat split.
    + destruct (IH tail acc (emit (SysRecv (mClientSocket c)) w) c
                  Hrun Hact Hq' Hlf) as (w1 & E & Ha & Hs & Hl).
      exists w1. cbn [bytes_of_all fold_right bytes_of].
      fold (bytes_of_all script). rewrite app_nil_s. now repeat split.
Qed.

Lemma clean_record_erase m : clean_record m -> erase_after_last m = m.
Proof.
  intros (Hs & _). rewrite <- (app_empty_r m) at 1.
  now apply erase_after_last_padded.
Qed.

Lemma turn_reads w c :
  mHasActiveConnection c = true -> (0 <= mClientSocket c)%Z ->
  readLoop_turn w c =
    match readMessage_loop (recvs w) "" w c with
    | ReadReturned message w' c' =>
        if negb (empty message) then Continue w' (processMessage c' message)
        else Continue w' c'
    | ReadBlocked w' c' => Blocked w' c'
    end.
Proof.
  intros Hact Hfd. unfold readLoop_turn, readLoop_read, readMessage.
  rewrite Hact. simpl.
  now replace (mClientSocket c <? 0)%Z with false by (symmetry; lia).
Qed.

Lemma turn_gathers_record w c (p : P)
    (script : list RecvResult) (last_piece tail : string)
    (rest : list RecvResult) :
  mRunning c = true ->
  mHasActiveConnection c = true ->
  (0 <= mClientSocket c)%Z ->
  mProcessor c = Some p ->
  Forall quiet script ->
  ~ In LF (chars last_piece) ->
  ~ In NUL (chars last_piece) ->
  erase_after_last (bytes_of_all script ++ last_piece) <> "" ->
  recvs w = (script ++ RecvBytes (last_piece ++ String LF tail) :: rest)%list ->
  exists w',
    readLoop_turn w c
      = Continue w'
          (set_processor
             (Some (processVssMessage p
                      (erase_after_last (bytes_of_all script ++ last_piece))))
             c) /\
    recvs w' = rest /\ accepts w' = accepts w.
Proof.
  intros Hrun Hact Hfd Hp Hq Hlf Hnul Hne Hrecvs.
  rewrite (turn_reads w c Hact Hfd), Hrecvs.
  destruct (readMessage_loop_gathers script
              (RecvBytes (last_piece ++ String LF tail) :: rest) "" w c
              Hrun Hact Hq)
    as (w1 & -> & Ha & _ & Hacc); [simpl; tauto|].
  rewrite app_nil_s in *.
  cbn [readMessage_loop]. rewrite Hrun, Hact. cbn [andb].
  rewrite (c_str_past last_piece LF tail Hnul) by discriminate.
  assert (Hchunk : empty (last_piece ++ String LF tail) = false)
    by (destruct last_piece; reflexivity).
  rewrite Hchunk. cbn [negb].
  rewrite <- app_assoc_s.
  rewrite find_first by (apply not_in_app; now split).
  rewrite take_app.
  destruct (empty (erase_after_last (bytes_of_all script ++ last_piece)))
    eqn:Ee; [apply empty_true in Ee; congruence|].
  cbn [negb].
  unfold processMessage. rewrite Hp, Ee. cbn [negb].
  eexists. split; [reflexivity|]. split; [reflexivity | exact Ha].
Qed.

(** X8. A record that reaches the listener in pieces, with timeouts
    in between, is put together inside one call of [readMessage]: when
    the piece that carries the terminator ends with it, that turn of
    the loop hands the processor the whole record, trailing blanks
    removed, and consumes exactly those answers. *)
Theorem record_reassembled w c (p : P)
    (script : list RecvResult) (last_piece : string) (rest : list RecvResult) :
  mRunning c = true ->
  mHasActiveConnection c = true ->
  (0 <= mClientSocket c)%Z ->
  mProcessor c = Some p ->
  Forall quiet script ->
  ~ In LF (chars last_piece) ->
  ~ In NUL (chars last_piece) ->
  erase_after_last (bytes_of_all script ++ last_piece) <> "" ->
  recvs w = (script ++ RecvBytes (line last_piece) :: rest)%list ->
  exists w',
    readLoop_turn w c
      = Continue w'
          (set_processor
             (Some (processVssMessage p
                      (erase_after_last (bytes_of_all script ++ last_piece))))
             c) /\
    recvs w' = rest /\ accepts w' = accepts w.
Proof. intros. eapply (turn_gathers_record w c p script last_piece ""); eassumption. Qed.

(** X17. Only the first record of a read is handed over: whatever
    follows the first line terminator in the same read, more records
    included, is consumed with it and is gone when the next turn
    starts with an empty accumulator. *)
Theorem bytes_after_terminator_discarded w c (p : P)
    (script : list RecvResult) (last_piece tail : string)
    (rest : list RecvResult) :
  mRunning c = true ->
  mHasActiveConnection c = true ->
  (0 <= mClientSocket c)%Z ->
  mProcessor c = Some p ->
  Forall quiet script ->
  ~ In LF (chars last_piece) ->
  ~ In NUL (chars last_piece) ->
  erase_after_last (bytes_of_all script ++ last_piece) <> "" ->
  recvs w = (script ++ RecvBytes (last_piece ++ String LF tail) :: rest)%list ->
  exists w',
    readLoop_turn w c
      = Continue w'
          (set_processor
             (Some (processVssMessage p
                      (erase_after_last (bytes_of_all script ++ last_piece))))
             c) /\
    recvs w' = rest /\
    readMessage w'
      (set_processor
         (Some (processVssMessage p
                  (erase_after_last (bytes_of_all script ++ last_piece))))
         c)
    = readMessage_loop rest "" w'
        (set_processor
           (Some (processVssMessage p
                    (erase_after_last (bytes_of_all script ++ last_piece))))
           c).
Proof.
  intros Hrun Hact Hfd Hp Hq Hlf Hnul Hne Hrecvs.
  destruct (turn_gathers_record w c p script last_piece tail rest
              Hrun Hact Hfd Hp Hq Hlf Hnul Hne Hrecvs) as (w' & E & Hr & _).
  exists w'. split; [exact E|]. split; [exact Hr|].
  unfold readMessage. cbn [mClientSocket mHasActiveConnection set_processor].
  rewrite Hact, Hr.
  now replace (mClientSocket c <? 0)%Z with false by (symmetry; lia).
Qed.

Lemma blank_line_skipped (blank m : string) (rs : list RecvResult) w c :
  mRunning c = true ->
  mHasActiveConnection c = true ->
  all_ws blank = true ->
  ~ In LF (chars blank) ->
  ~ In NUL (chars blank) ->
  ~ In NUL (chars m) ->
  readMessage_loop (RecvBytes (line blank ++ line m) :: rs) "" w c
  = readMessage_loop rs (line m) (emit (SysRecv (mClientSocket c)) w) c.
Proof.
  intros Hrun Hact Hws Hlf Hnul Hm.
  cbn [readMessage_loop]. rewrite Hrun, Hact. cbn [andb].
  assert (Hchunk : ~ In NUL (chars (line blank ++ line m))).
  { unfold line. rewrite !not_in_app. simpl. intuition discriminate. }
  rewrite (c_str_id _ Hchunk), app_nil_s.
  assert (Hne : empty (line blank ++ line m) = false)
    by (unfold line; destruct blank; reflexivity).
  rewrite Hne. cbn [negb].
  assert (Echunk : line blank ++ line m = blank ++ String LF (line m)).
  { unfold line at 1. now rewrite app_assoc_s. }
  rewrite Echunk.
  rewrite (find_first LF blank _ Hlf), take_app, drop_app.
  now rewrite (erase_after_last_blank blank Hws).
Qed.

(** X18. A record that shares its read with a blank line before it is
    held back: the terminator search runs once per read, so after the
    blank line is skipped the record waits in the accumulator.  If
    nothing more arrives the turn never ends and the record is not
    handed over; when the next bytes arrive the record is handed over
    and those bytes are consumed with it. *)
Theorem record_after_blank_line_held_back w c (p : P)
    (blank m d : string) (rest : list RecvResult) :
  mRunning c = true ->
  mHasActiveConnection c = true ->
  (0 <= mClientSocket c)%Z ->
  mProcessor c = Some p ->
  all_ws blank = true ->
  ~ In LF (chars blank) ->
  ~ In NUL (chars blank) ->
  clean_record m ->
  d <> "" ->
  (recvs w = [RecvBytes (line blank ++ line m)] ->
   exists w', readLoop_turn w c = Blocked w' c) /\
  (recvs w = RecvBytes (line blank ++ line m) :: RecvBytes d :: rest ->
   exists w',
     readLoop_turn w c
       = Continue w' (set_processor (Some (processVssMessage p m)) c) /\
     recvs w' = rest).
Proof.
  intros Hrun Hact Hfd Hp Hws Hlf Hnul Hm Hd.
  destruct Hm as (Hsolid & Hmlf & Hmnul).
  split; intros Hrecvs; rewrite (turn_reads w c Hact Hfd), Hrecvs,
    (blank_line_skipped blank m _ w c Hrun Hact Hws Hlf Hnul Hmnul).
  - cbn [readMessage_loop]. rewrite Hrun, Hact. cbn [andb].
    eexists. reflexivity.
  - cbn [readMessage_loop]. rewrite Hrun, Hact. cbn [andb].
    destruct d as [|d0 d']; [congruence|]. cbn [empty negb].
    assert (Eline : line m ++ c_str (String d0 d')
                    = m ++ String LF (c_str (String d0 d'))).
    { unfold line. now rewrite app_assoc_s. }
    rewrite Eline.
    rewrite (find_first LF m _ Hmlf), take_app.
    rewrite (clean_record_erase m (conj Hsolid (conj Hmlf Hmnul))).
    destruct m as [|m0 m']; [discriminate|]. cbn [empty negb].
    unfold processMessage. rewrite Hp. cbn [empty negb].
    eexists. split; reflexivity.
Qed.

(** X9. When the peer goes away (end of stream or a read error), what
    has arrived of an unfinished record is dropped: the turn hands the
    processor nothing, closes the client descriptor and leaves the
    listener running without a connection. *)
Theorem unfinished_record_dropped w c
    (script : list RecvResult) (ending : RecvResult) (rest : list RecvResult) :
  mRunning c = true ->
  mHasActiveConnection c = true ->
  (0 <= mClientSocket c)%Z ->
  Forall quiet script ->
  ending = RecvEOF \/ ending = RecvError ->
  recvs w = (script ++ ending :: rest)%list ->
  exists w',
    readLoop_turn w c = Continue w' (set_client (-1) (set_active false c)) /\
    recvs w' = rest /\ accepts w' = accepts w /\
    In (SysClose (mClientSocket c)) (log w').
Proof.
  intros Hrun Hact Hfd Hq Hend Hrecvs.
  rewrite (turn_reads w c Hact Hfd), Hrecvs.
  destruct (readMessage_loop_gathers script (ending :: rest) "" w c
              Hrun Hact Hq)
    as (w1 & -> & Ha & _ & _); [simpl; tauto|].
  cbn [readMessage_loop]. rewrite Hrun, Hact. cbn [andb].
  destruct Hend as [-> | ->]; cbn [RecvEOF empty negb];
    (eexists; split; [reflexivity|]; split; [reflexivity|];
     split; [exact Ha | simpl; auto]).
Qed.

(** X10. A read that carries a NUL byte loses that byte and all that
    follows it in the same read: the buffer is appended as a C
    string. *)
Theorem bytes_after_nul_lost (a b : string) (rs : list RecvResult)
    (message : string) w c :
  mRunning c = true ->
  mHasActiveConnection c = true ->
  a <> "" ->
  c_str (a ++ String NUL b) = c_str a /\
  readMessage_loop (RecvBytes (a ++ String NUL b) :: rs) message w c
  = readMessage_loop (RecvBytes a :: rs) message w c.
Proof.
  intros Hrun Hact Ha. split; [apply c_str_cut|].
  cbn [readMessage_loop]. rewrite c_str_cut, Hrun, Hact.
  destruct a as [|x r]; [congruence|]. reflexivity.
Qed.

Lemma flat_map_same_block {A B : Type} (blk : list B) (l : list A) :
  (flat_map (fun _ => blk) l ++ blk = blk ++ flat_map (fun _ => blk) l)%list.
Proof.
  induction l as [|x l IH]; simpl; [now rewrite app_nil_r|].
  now rewrite <- app_assoc, IH.
Qed.

(** X11. While no peer arrives, the loop keeps trying: each turn
    makes one accept on the listening socket and then sleeps, and
    issues no other call; it hands the processor nothing, and leaves
    the listener running and listening on the same socket. *)
Theorem accept_retried w c (fds : list Z) (rest : list Z) :
  mRunning c = true ->
  mHasActiveConnection c = false ->
  (0 <= mServerSocket c)%Z ->
  Forall (fun fd => (fd < 0)%Z) fds ->
  accepts w = (fds ++ rest)%list ->
  exists w' c',
    readLoop (List.length fds) w c = Turning w' c' /\
    log w'
      = (flat_map (fun _ => [SysSleep; SysAccept (mServerSocket c)]) fds
         ++ log w)%list /\
    accepts w' = rest /\ recvs w' = recvs w /\ setups w' = setups w /\
    mProcessor c' = mProcessor c /\
    isRunning c' = true /\ mHasActiveConnection c' = false /\
    mServerSocket c' = mServerSocket c.
Proof.
  revert w c. induction fds as [|fd fds IH];
    intros w c Hrun Hact Hsrv Hneg Hacc.
  - exists w, c. simpl. now repeat split.
  - inversion Hneg as [|? ? Hfd Hneg']; subst.
    cbn [List.length readLoop]. rewrite Hrun.
    unfold readLoop_turn, acceptConnection. rewrite Hact. cbn [negb].
    replace (mServerSocket c <? 0)%Z with false by (symmetry; lia).
    rewrite Hacc. cbn [app]. cbn [set_client mClientSocket].
    replace (fd <? 0)%Z with true by (symmetry; lia). cbn [negb].
    edestruct (IH (emit SysSleep
                     {| setups := setups w; accepts := (fds ++ rest)%list;
                        recvs := recvs w;
                        log := SysAccept (mServerSocket c) :: log w |})
                  (set_client fd c))
      as (w' & c' & E & HL & H1 & H2 & H2' & H3 & H4 & H5 & H6);
      try reflexivity; try assumption.
    exists w', c'. split; [exact E|].
    split; [|now repeat split].
    rewrite HL. cbn [set_client mServerSocket emit log flat_map].
    change (SysSleep :: SysAccept (mServerSocket c) :: log w)
      with ([SysSleep; SysAccept (mServerSocket c)] ++ log w)%list.
    rewrite app_assoc, flat_map_same_block, <- app_assoc. reflexivity.
Qed.

(** One clean record per read: each turn hands over one record. *)
Lemma reads_fold (records : list string) : forall w c (p : P),
  mRunning c = true ->
  mHasActiveConnection c = true ->
  (0 <= mClientSocket c)%Z ->
  mProcessor c = Some p ->
  Forall clean_record records ->
  recvs w = map (fun m => RecvBytes (line m)) records ->
  mProcessor (run_conn (readLoop (List.length records) w c))
    = Some (fold_left processVssMessage records p).
Proof.
  induction records as [|m ms IH];
    intros w c p Hrun Hact Hfd Hp Hclean Hrecvs.
  - exact Hp.
  - inversion Hclean as [|? ? Hm Hms]; subst.
    cbn [List.length readLoop fold_left]. rewrite Hrun.
    destruct (turn_gathers_record w c p [] m ""
                (map (fun m => RecvBytes (line m)) ms))
      as (w' & -> & Hr' & _); try assumption.
    + constructor.
    + apply Hm.
    + apply Hm.
    + cbn [bytes_of_all fold_right]. rewrite app_nil_s.
      rewrite (clean_record_erase m Hm).
      destruct Hm as [E _]. now destruct m.
    + cbn [bytes_of_all fold_right]. rewrite app_nil_s.
      rewrite (clean_record_erase m Hm).
      now apply IH.
Qed.

End WithProcessor.

(** *** With the recording processor *)

Lemma handed_clean_refl (c : Comm (list string)) : handed_clean c c.
Proof.
  exists []. split; [|constructor].
  destruct (mProcessor c); simpl; [now rewrite app_nil_r | reflexivity].
Qed.

Lemma handed_clean_trans (c1 c2 c3 : Comm (list string)) :
  handed_clean c1 c2 -> handed_clean c2 c3 -> handed_clean c1 c3.
Proof.
  intros (n1 & E1 & F1) (n2 & E2 & F2). exists (n1 ++ n2)%list.
  split; [|now apply Forall_app].
  rewrite E2, E1. destruct (mProcessor c1); simpl;
    [now rewrite <- app_assoc | reflexivity].
Qed.

Lemma handed_clean_same (c c' : Comm (list string)) :
  mProcessor c' = mProcessor c -> handed_clean c c'.
Proof.
  intros E. destruct (handed_clean_refl c) as (n & En & Fn).
  exists n. now rewrite E.
Qed.

Lemma readLoop_read_clean w (c : Comm (list string)) :
  match readLoop_read w c with
  | Continue _ c' | Blocked _ c' => handed_clean c c'
  end.
Proof.
  unfold readLoop_read, readMessage.
  destruct ((mClientSocket c <? 0)%Z || negb (mHasActiveConnection c)).
  - simpl. apply handed_clean_refl.
  - pose proof (readMessage_loop_frame (recvs w) "" w w c
                  (only_loop_calls_refl w)) as Hf.
    pose proof (readMessage_loop_clean (recvs w) "" w c) as Hc.
    destruct (readMessage_loop (recvs w) "" w c) as [m w' c'|w' c'].
    + destruct Hf as (_ & _ & Hp & _).
      destruct (empty m) eqn:Em; simpl; [now apply handed_clean_same|].
      destruct (Hc m w' c') as [E|Hclean]; [simpl; tauto | reflexivity | |].
      * subst m. discriminate.
      * exists [m]. split; [|constructor; [exact Hclean | constructor]].
        unfold processMessage. rewrite Em. simpl. rewrite Hp.
        now destruct (mProcessor c).
    + destruct Hf as (_ & _ & Hp & _). now apply handed_clean_same.
Qed.

Lemma readLoop_turn_clean w (c : Comm (list string)) :
  match readLoop_turn w c with
  | Continue _ c' | Blocked _ c' => handed_clean c c'
  end.
Proof.
  unfold readLoop_turn.
  destruct (negb (mHasActiveConnection c)); [|apply readLoop_read_clean].
  assert (Hacc : mProcessor (snd (acceptConnection w c)) = mProcessor c).
  { unfold acceptConnection. destruct (mServerSocket c <? 0)%Z; simpl;
      [reflexivity|].
    destruct (accepts w) as [|fd rest]; simpl; [reflexivity|].
    now destruct (fd <? 0)%Z. }
  destruct (acceptConnection w c) as [[accepted w1] c1]. simpl in Hacc.
  destruct (negb accepted); [now apply handed_clean_same|].
  pose proof (readLoop_read_clean w1 c1) as Hr.
  destruct (readLoop_read w1 c1) as [w2 c2|w2 c2];
    (eapply handed_clean_trans; [apply handed_clean_same; exact Hacc | exact Hr]).
Qed.

(** X12. Whatever arrives, every record the loop hands to the
    processor is clean: not empty, free of line terminators and NUL
    bytes, and without a blank at its end; and the loop only ever adds
    to what the processor was handed before. *)
Theorem delivered_records_clean (fuel : nat) w (c : Comm (list string)) :
  exists new,
    mProcessor (run_conn (readLoop fuel w c))
      = option_map (fun seen => (seen ++ new)%list) (mProcessor c) /\
    Forall clean_record new.
Proof.
  change (handed_clean c (run_conn (readLoop fuel w c))).
  revert w c. induction fuel as [|fuel IH]; intros w c; simpl;
    [apply handed_clean_refl|].
  destruct (mRunning c); simpl; [|apply handed_clean_refl].
  pose proof (readLoop_turn_clean w c) as Ht.
  destruct (readLoop_turn w c) as [w1 c1|w1 c1]; simpl; [|exact Ht].
  eapply handed_clean_trans; [exact Ht | apply IH].
Qed.

Lemma records_from_line m : forall cur s,
  ~ In LF (chars m) ->
  Framer.records_from cur (m ++ String LF s) =
    if empty (erase_after_last (cur ++ m)) then Framer.records_from "" s
    else erase_after_last (cur ++ m) :: Framer.records_from "" s.
Proof.
  induction m as [|a m IH]; intros cur s Hn; sapp.
  - cbn [Framer.records_from]. rewrite Ascii.eqb_refl, app_empty_r.
    reflexivity.
  - cbn [Framer.records_from].
    destruct (Ascii.eqb_spec a LF) as [->|Hne]; [simpl in Hn; tauto|].
    rewrite IH by (simpl in Hn; tauto).
    now rewrite app_assoc_s.
Qed.

Lemma complete_records_lines ms :
  Forall clean_record ms ->
  Framer.complete_records (Framer.stream_of (map line ms)) = ms.
Proof.
  unfold Framer.complete_records.
  induction ms as [|m ms IH]; intros Hc; [reflexivity|].
  inversion Hc as [|? ? Hm Hms]; subst.
  cbn [map Framer.stream_of fold_right].
  fold (Framer.stream_of (map line ms)).
  unfold line at 1. rewrite app_assoc_s. sapp.
  rewrite records_from_line by apply Hm. sapp.
  rewrite (clean_record_erase m Hm).
  destruct m as [|a m']; [destruct Hm as [E _]; discriminate|].
  cbn [empty]. now rewrite (IH Hms).
Qed.

(** X13. When each read brings exactly one clean record and its
    terminator, the loop hands over every record, in order, one per
    turn: here the framer does yield the complete records of the
    stream. *)
Theorem one_record_per_read w (c : Comm (list string))
    (seen records : list string) :
  mRunning c = true ->
  mHasActiveConnection c = true ->
  (0 <= mClientSocket c)%Z ->
  mProcessor c = Some seen ->
  Forall clean_record records ->
  recvs w = map (fun m => RecvBytes (line m)) records ->
  delivered (readLoop (List.length records) w c) = (seen ++ records)%list /\
  Framer.complete_records (Framer.stream_of (map line records)) = records.
Proof.
  intros Hrun Hact Hfd Hp Hclean Hrecvs.
  split; [|now apply complete_records_lines].
  unfold delivered.
  rewrite (reads_fold records w c seen Hrun Hact Hfd Hp Hclean Hrecvs).
  clear. revert seen. induction records as [|m ms IH]; intros seen; simpl.
  - now rewrite app_nil_r.
  - rewrite IH. now rewrite <- app_assoc.
Qed.

(** *** With the emulator as the processor *)

Section Pipeline.
Context {Store Hal : Type} `{VssVehicleEmulator.VehicleEmulator Store Hal}.

(** X14. A listener wired to an active emulator, receiving one clean
    record per read, passes every record to [processVssMessage] in
    arrival order: the emulator it holds afterwards is the one that
    has handled exactly those messages, and its processed counter has
    grown by their number. *)
Theorem pipeline_counts_every_record
    w (c : Comm (VssVehicleEmulator.Emulator Store Hal))
    (e : VssVehicleEmulator.Emulator Store Hal) (records : list string) :
  mRunning c = true ->
  mHasActiveConnection c = true ->
  (0 <= mClientSocket c)%Z ->
  mProcessor c = Some e ->
  VssVehicleEmulator.isActive e = true ->
  Forall clean_record records ->
  recvs w = map (fun m => RecvBytes (line m)) records ->
  mProcessor (run_conn (readLoop (List.length records) w c))
    = Some (VssVehicleEmulator.processAll e records) /\
  VssVehicleEmulator.mMessagesProcessed
    (VssVehicleEmulator.processAll e records)
  = (VssVehicleEmulator.mMessagesProcessed e
     + N.of_nat (List.length records))%N.
Proof.
  intros Hrun Hact Hfd Hp Hactive Hclean Hrecvs.
  split.
  - exact (reads_fold records w c e Hrun Hact Hfd Hp Hclean Hrecvs).
  - apply (EmulatorMoreFacts.processAll_counts e records Hactive).
Qed.

End Pipeline.

End ReadLoopFacts.

(** ** More on clamping *)

Module ConverterMoreFacts.
Import StdString ConverterUtils AndroidVssConverter Shapes.
Import AndroidVssConverterFacts.

(** X15. [clampFloat] with bounds in order returns a value between
    them, leaves a value that is already between them as it is, and
    clamping twice is clamping once. *)
Theorem clampFloat_between (value minVal maxVal : Q) :
  (minVal <= maxVal)%Q ->
  (minVal <= clampFloat value minVal maxVal)%Q /\
  (clampFloat value minVal maxVal <= maxVal)%Q /\
  ((minVal <= value)%Q -> (value <= maxVal)%Q ->
   clampFloat value minVal maxVal = value) /\
  clampFloat (clampFloat value minVal maxVal) minVal maxVal
  = clampFloat value minVal maxVal.
Proof.
  intros Hord. unfold clampFloat. repeat split.
  - compare_all; lra.
  - compare_all; lra.
  - intros Hlo Hhi. compare_all; try reflexivity; lra.
  - destruct (Qltb value minVal) eqn:E1.
    + compare_all; try reflexivity; lra.
    + destruct (Qltb maxVal value) eqn:E2.
      * compare_all; try reflexivity; lra.
      * now rewrite E1, E2.
Qed.

(** X16. A numeric value produced by a generated converter whose
    rule has its bounds in order lies within the bounds the rule has:
    an out-of-range input is clamped, never passed through and never
    rejected. *)
Theorem converted_within_bounds (r : ConversionRule) (raw : string) (q : Q) :
  bounds_ordered r ->
  convertNumeric r raw = Some q ->
  within_bounds r q /\
  (exists v, parse_numeric (data_kind r) raw = Some v).
Proof.
  unfold bounds_ordered, convertNumeric, within_bounds.
  intros Hord Hq.
  destruct (parse_numeric (data_kind r) raw) as [v0|]; [|discriminate].
  split; [|now exists v0].
  injection Hq as <-.
  destruct (min_value r) as [lo|], (max_value r) as [hi|];
    split; try exact I; compare_all; lra.
Qed.

End ConverterMoreFacts.

(** ** The further properties at concrete inputs *)

Module MoreWitnesses.
Import StdString ConverterUtils AndroidVssConverter Shapes.
Import VssVehicleEmulator VssSocketComm.
Import EmulatorMoreFacts ListenerLifecycleFacts ReadLoopFacts ConverterMoreFacts.

Lemma converted_exactly_when_witness :
  isActive sample_emulator = true /\
  store (processVssMessage sample_emulator "Foo.Bar=1") = store sample_emulator.
Proof.
  split; [reflexivity|].
  apply (proj2 (proj2 (converted_exactly_when sample_emulator "Foo.Bar=1"
                         eq_refl))).
  intros p v pv Hp. injection Hp as <- <-. vm_compute. discriminate.
Defined.

Lemma every_message_counted_witness :
  isActive sample_emulator = true /\
  mMessagesProcessed (processAll sample_emulator ["Foo.Bar=1"; "="]) = 2%N.
Proof.
  split; [reflexivity|].
  exact (proj1 (proj2 (proj2 (every_message_counted sample_emulator
                                ["Foo.Bar=1"; "="] eq_refl)))).
Defined.


Lemma stop_resets_witness :
  mRunning recording_listener = true /\
  snd (stop (scripted [] []) recording_listener) = construct (Some []) 33445.
Proof.
  split; [reflexivity|].
  apply (stop_resets (scripted [] []) recording_listener eq_refl eq_refl).
  - intros _. simpl. lia.
  - simpl. lia.
  - simpl. lia.
Defined.

Lemma read_loop_uses_open_descriptors_witness :
  connection_consistent recording_listener /\
  connection_consistent
    (run_conn (readLoop 3 (scripted [7%Z] [RecvEOF]) recording_listener)).
Proof.
  assert (Hc : connection_consistent recording_listener)
    by (intros _; simpl; lia).
  split; [exact Hc|].
  exact (proj1 (read_loop_uses_open_descriptors 3 (scripted [7%Z] [RecvEOF])
                  recording_listener Hc)).
Defined.

Lemma record_reassembled_witness :
  exists w',
    readLoop_turn
      (scripted [] [RecvBytes "a="; RecvTimeout; RecvBytes (line "1 ")])
      recording_listener
    = Continue w' (set_processor (Some ["a=1"]) recording_listener).
Proof.
  destruct (record_reassembled
              (scripted [] [RecvBytes "a="; RecvTimeout; RecvBytes (line "1 ")])
              recording_listener [] [RecvBytes "a="; RecvTimeout] "1 " [])
    as (w' & E & _); try reflexivity.
  - simpl. lia.
  - repeat constructor; simpl; intuition discriminate.
  - simpl. intuition discriminate.
  - simpl. intuition discriminate.
  - vm_compute. discriminate.
  - exists w'. exact E.
Defined.

Lemma unfinished_record_dropped_witness :
  exists w',
    readLoop_turn (scripted [] [RecvBytes "a="; RecvError]) recording_listener
    = Continue w' (set_client (-1) (set_active false recording_listener)).
Proof.
  destruct (unfinished_record_dropped
              (scripted [] [RecvBytes "a="; RecvError])
              recording_listener [RecvBytes "a="] RecvError [])
    as (w' & E & _); try reflexivity.
  - simpl. lia.
  - repeat constructor; simpl; intuition discriminate.
  - now right.
  - exists w'. exact E.
Defined.

Lemma bytes_after_terminator_discarded_witness :
  exists w',
    readLoop_turn
      (scripted [] [RecvBytes ("a=1" ++ String LF (line "b=2"))])
      recording_listener
    = Continue w' (set_processor (Some ["a=1"]) recording_listener) /\
    recvs w' = [].
Proof.
  destruct (bytes_after_terminator_discarded
              (scripted [] [RecvBytes ("a=1" ++ String LF (line "b=2"))])
              recording_listener [] [] "a=1" (line "b=2") [])
    as (w' & E & Hr & _); try reflexivity.
  - simpl. lia.
  - constructor.
  - simpl. intuition discriminate.
  - simpl. intuition discriminate.
  - vm_compute. discriminate.
  - exists w'. now split.
Defined.

Lemma record_after_blank_line_held_back_witness :
  exists w',
    readLoop_turn (scripted [] [RecvBytes (line " " ++ line "a=1")])
                  recording_listener
    = Blocked w' recording_listener.
Proof.
  apply (record_after_blank_line_held_back
           (scripted [] [RecvBytes (line " " ++ line "a=1")])
           recording_listener [] " " "a=1" "x" []); try reflexivity.
  - simpl. lia.
  - simpl. intuition discriminate.
  - simpl. intuition discriminate.
  - repeat split; simpl; intuition discriminate.
  - discriminate.
Defined.

Lemma bytes_after_nul_lost_witness :
  readMessage_loop [RecvBytes ("a=" ++ String NUL (line "1"))] ""
    (scripted [] []) recording_listener
  = readMessage_loop [RecvBytes "a="] "" (scripted [] []) recording_listener.
Proof.
  apply (bytes_after_nul_lost "a=" (line "1") [] "" (scripted [] [])
           recording_listener eq_refl eq_refl).
  discriminate.
Defined.

Lemma accept_retried_witness :
  exists w' c',
    readLoop 2 (scripted [(-1)%Z; (-1)%Z; 7%Z] []) listening_listener
    = Turning w' c' /\
    log w' = [SysSleep; SysAccept 3; SysSleep; SysAccept 3] /\
    accepts w' = [7%Z].
Proof.
  destruct (accept_retried (scripted [(-1)%Z; (-1)%Z; 7%Z] [])
              listening_listener [(-1)%Z; (-1)%Z] [7%Z])
    as (w' & c' & E & HL & Ha & _); try reflexivity.
  - simpl. lia.
  - repeat constructor; lia.
  - exists w', c'. now repeat split.
Defined.

Lemma one_record_per_read_witness :
  delivered (readLoop 2
               (scripted [] [RecvBytes (line "a=1"); RecvBytes (line "b=2")])
               recording_listener)
  = ["a=1"; "b=2"].
Proof.
  apply (one_record_per_read
           (scripted [] [RecvBytes (line "a=1"); RecvBytes (line "b=2")])
           recording_listener [] ["a=1"; "b=2"]); try reflexivity.
  - simpl. lia.
  - repeat constructor; simpl; intuition discriminate.
Defined.

Lemma pipeline_counts_every_record_witness :
  mMessagesProcessed (processAll sample_emulator ["Vehicle.Speed=33.33"])
  = 1%N.
Proof.
  apply (pipeline_counts_every_record
           (scripted [] [RecvBytes (line "Vehicle.Speed=33.33")])
           emulator_listener sample_emulator ["Vehicle.Speed=33.33"]);
    try reflexivity.
  - simpl. lia.
  - repeat constructor; simpl; intuition discriminate.
Defined.

Lemma clampFloat_between_witness :
  (0 <= 300 # 1)%Q /\ (clampFloat (360 # 1) 0 (300 # 1) <= 300 # 1)%Q.
Proof.
  assert (Hord : (0 <= 300 # 1)%Q) by (vm_compute; discriminate).
  split; [exact Hord|].
  exact (proj1 (proj2 (clampFloat_between (360 # 1) 0 (300 # 1) Hord))).
Defined.

Lemma converted_within_bounds_witness :
  bounds_ordered speed_rule /\
  convertNumeric speed_rule "100" = Some (300 # 1)%Q /\
  within_bounds speed_rule (300 # 1)%Q.
Proof.
  assert (Hb : bounds_ordered speed_rule) by (vm_compute; discriminate).
  assert (Hq : convertNumeric speed_rule "100" = Some (300 # 1)%Q)
    by (vm_compute; reflexivity).
  split; [exact Hb|]. split; [exact Hq|].
  exact (proj1 (converted_within_bounds speed_rule "100" (300 # 1)%Q Hb Hq)).
Defined.

End MoreWitnesses.
